(** * sci_name_parser: a shallow embedding of [src/sci_name_parser.py]

    The module parses a botanical scientific name into genus, species,
    infraspecific epithet, hybrid markers and a taxonomic rank, and merges
    the parsed fields into a table row.

    Python values are modelled as follows.
    - A [str] is a list of Unicode code points ([N]); [len] and subscripts
      count code points, as in Python.
    - The local variables of [parse_scientific_name] form the record
      [locals]; every statement is a transformer of that record.
    - Exceptions and [print] live in the monad [M]: a computation takes the
      lines printed so far and yields either a value or a raised exception,
      together with the lines printed. What standard output can write is
      the interface [Stdout]; a [print] it cannot write raises.
    - The returned [dict] is an association list in insertion order; the
      table row is a finite map from column names to cells, a cell being
      a string or a missing value. *)

From Stdlib Require Import NArith String Ascii.
From stdpp Require Import base option list gmap.

Open Scope N_scope.
Open Scope nat_scope.

(** ** Strings *)

Abbreviation str := (list N).

(** An ASCII literal of the source as a list of code points. *)
Definition lit (s : string) : str :=
  map N_of_ascii (list_ascii_of_string s).

(** U+00D7 MULTIPLICATION SIGN, written both as the literal sign and as the
    escape [×] in the source; the two spellings are the same string. *)
Definition times : N := 215%N.
Definition space : N := 32%N.

(** [str.isspace] on one code point: the characters [str.split()] treats as
    separators. *)
Definition isspace (c : N) : bool :=
  ((9 <=? c) && (c <=? 13) || (28 <=? c) && (c <=? 32)
   || (c =? 133) || (c =? 160) || (c =? 5760)
   || (8192 <=? c) && (c <=? 8202)
   || (c =? 8232) || (c =? 8233) || (c =? 8239) || (c =? 8287)
   || (c =? 12288))%N.

(** [s.startswith(pre)]. *)
Fixpoint startswith (s pre : str) : bool :=
  match pre, s with
  | [], _ => true
  | _ :: _, [] => false
  | p :: pre', c :: s' => (p =? c)%N && startswith s' pre'
  end.

(** [sub in s] for strings: substring test. *)
Fixpoint contains (s sub : str) : bool :=
  startswith s sub
  || match s with
     | [] => false
     | _ :: s' => contains s' sub
     end.

(** [s.replace(old, new)] for a non-empty [old]: occurrences are found left
    to right and do not overlap. [skip] counts the characters of the current
    occurrence that are still to be passed over. *)
Fixpoint replace_from (old new : str) (skip : nat) (s : str) : str :=
  match s with
  | [] => []
  | c :: s' =>
      match skip with
      | S k => replace_from old new k s'
      | O =>
          if startswith s old
          then new ++ replace_from old new (length old - 1) s'
          else c :: replace_from old new 0 s'
      end
  end.

Definition replace (s old new : str) : str := replace_from old new 0 s.

(** [s.split()]: maximal runs of non-whitespace characters. [cur] holds the
    current run, most recent character first. *)
Fixpoint split_from (cur : str) (s : str) : list str :=
  match s with
  | [] => match cur with [] => [] | _ => [reverse cur] end
  | c :: s' =>
      if isspace c
      then match cur with
           | [] => split_from [] s'
           | _ => reverse cur :: split_from [] s'
           end
      else split_from (c :: cur) s'
  end.

Definition split (s : str) : list str := split_from [] s.

(** [x in l] for a list of strings. *)
Definition inlist (x : str) (l : list str) : bool := bool_decide (x ∈ l).

(** Position of the first element equal to [x], if any. *)
Fixpoint find_index (l : list str) (x : str) : option nat :=
  match l with
  | [] => None
  | y :: l' => if decide (y = x) then Some 0 else S <$> find_index l' x
  end.

(** ** Exceptions and printed output *)

Inductive exn :=
| IndexError
| ValueError
| KeyError
| TypeError
| AttributeError
| UnicodeEncodeError.

Global Instance exn_eq_dec : EqDecision exn.
Proof. solve_decision. Defined.

Inductive result (A : Type) :=
| Ok (a : A)
| Raise (e : exn).
Arguments Ok {A} a.
Arguments Raise {A} e.

(** A computation: from the complete lines printed so far to an outcome and
    the complete lines printed afterwards. *)
Definition M (A : Type) : Type := list str → result A * list str.

Global Instance M_ret : MRet M := λ A a out, (Ok a, out).
Global Instance M_bind : MBind M := λ A B f m out,
  match m out with
  | (Ok a, out') => f a out'
  | (Raise e, out') => (Raise e, out')
  end.

Definition raise {A} (e : exn) : M A := λ out, (Raise e, out).

(** Standard output is an open text stream with an encoding and an error
    handler the program does not choose: [encodable c] tells whether the
    stream can write the code point [c]. Encoding is the one way a write
    to it fails. *)
Class Stdout := { encodable : N → bool }.

Definition newline : N := 10%N.

(** A line the stream can write, its terminator included. *)
Definition printable `{Stdout} (line : str) : bool :=
  forallb encodable (line ++ [newline]).

(** Writing one line. The stream raises [UnicodeEncodeError] at the first
    code point it cannot encode; the line is then not completed, and the
    state, which holds complete lines, is left as it was. *)
Definition write_line `{Stdout} (line : str) : M unit :=
  λ out,
    if printable line
    then (Ok tt, out ++ [line])
    else (Raise UnicodeEncodeError, out).

(** [print(a, b)]: the arguments separated by one space, as one line. *)
Definition print `{Stdout} (a b : str) : M unit :=
  write_line (a ++ space :: b).

(** The stream of an interpreter with default settings: UTF-8 with the
    strict error handler, which writes every code point but the
    surrogates U+D800 to U+DFFF. The closed examples of this file run
    with it. *)
Global Instance utf8_strict : Stdout :=
  {| encodable c := negb ((55296 <=? c) && (c <=? 57343))%N |}.

(** A stream limited to ASCII, as with [PYTHONIOENCODING=ascii]. *)
Definition ascii_strict : Stdout :=
  {| encodable c := (c <? 128)%N |}.

(** [try: body except e: handler]. *)
Definition try_except {A} (body : M A) (e : exn) (handler : M A) : M A :=
  λ out,
    match body out with
    | (Raise e', out') =>
        if decide (e' = e) then handler out' else (Raise e', out')
    | r => r
    end.

(** [l[i]] on a list, [i] non-negative. *)
Definition getitem {A} (l : list A) (i : nat) : M A :=
  match l !! i with
  | Some x => mret x
  | None => raise IndexError
  end.

(** [s[i]] on a string: a string of length one. *)
Definition str_getitem (s : str) (i : nat) : M str :=
  c ← getitem s i; mret [c].

(** [l[i] = v]. *)
Definition setitem {A} (l : list A) (i : nat) (v : A) : M (list A) :=
  if decide (i < length l) then mret (<[i:=v]> l) else raise IndexError.

(** [l.pop(i)], the popped value dropped. *)
Definition pop {A} (l : list A) (i : nat) : M (list A) :=
  if decide (i < length l) then mret (delete i l) else raise IndexError.

(** [l.index(x)]. *)
Definition index (l : list str) (x : str) : M nat :=
  match find_index l x with
  | Some i => mret i
  | None => raise ValueError
  end.

(** ** The returned dictionary *)

Abbreviation dict := (list (str * str)).

(** [d[k]] without the exception: the value of the first entry under [k]. *)
Fixpoint getfield (d : dict) (k : str) : option str :=
  match d with
  | [] => None
  | (k', v) :: d' => if decide (k' = k) then Some v else getfield d' k
  end.

Definition dict_getitem (d : dict) (k : str) : M str :=
  match getfield d k with
  | Some v => mret v
  | None => raise KeyError
  end.

(** ** Local variables of [parse_scientific_name] *)

Record locals := Locals {
  Taxon_Rank : str;
  Genus : str;
  Species : str;
  Genus_Hybrid : str;
  Species_Hybrid : str;
  Infraspecies : str;
  Variety : str;
  Subspecies : str;
  Form : str;
  scientific_name_tokens : list str
}.

Definition set_Taxon_Rank (v : str) (l : locals) : locals :=
  Locals v (Genus l) (Species l) (Genus_Hybrid l) (Species_Hybrid l)
    (Infraspecies l) (Variety l) (Subspecies l) (Form l)
    (scientific_name_tokens l).
Definition set_Genus (v : str) (l : locals) : locals :=
  Locals (Taxon_Rank l) v (Species l) (Genus_Hybrid l) (Species_Hybrid l)
    (Infraspecies l) (Variety l) (Subspecies l) (Form l)
    (scientific_name_tokens l).
Definition set_Species (v : str) (l : locals) : locals :=
  Locals (Taxon_Rank l) (Genus l) v (Genus_Hybrid l) (Species_Hybrid l)
    (Infraspecies l) (Variety l) (Subspecies l) (Form l)
    (scientific_name_tokens l).
Definition set_Genus_Hybrid (v : str) (l : locals) : locals :=
  Locals (Taxon_Rank l) (Genus l) (Species l) v (Species_Hybrid l)
    (Infraspecies l) (Variety l) (Subspecies l) (Form l)
    (scientific_name_tokens l).
Definition set_Species_Hybrid (v : str) (l : locals) : locals :=
  Locals (Taxon_Rank l) (Genus l) (Species l) (Genus_Hybrid l) v
    (Infraspecies l) (Variety l) (Subspecies l) (Form l)
    (scientific_name_tokens l).
Definition set_Infraspecies (v : str) (l : locals) : locals :=
  Locals (Taxon_Rank l) (Genus l) (Species l) (Genus_Hybrid l)
    (Species_Hybrid l) v (Variety l) (Subspecies l) (Form l)
    (scientific_name_tokens l).
Definition set_Variety (v : str) (l : locals) : locals :=
  Locals (Taxon_Rank l) (Genus l) (Species l) (Genus_Hybrid l)
    (Species_Hybrid l) (Infraspecies l) v (Subspecies l) (Form l)
    (scientific_name_tokens l).
Definition set_Subspecies (v : str) (l : locals) : locals :=
  Locals (Taxon_Rank l) (Genus l) (Species l) (Genus_Hybrid l)
    (Species_Hybrid l) (Infraspecies l) (Variety l) v (Form l)
    (scientific_name_tokens l).
Definition set_Form (v : str) (l : locals) : locals :=
  Locals (Taxon_Rank l) (Genus l) (Species l) (Genus_Hybrid l)
    (Species_Hybrid l) (Infraspecies l) (Variety l) (Subspecies l) v
    (scientific_name_tokens l).
Definition set_tokens (v : list str) (l : locals) : locals :=
  Locals (Taxon_Rank l) (Genus l) (Species l) (Genus_Hybrid l)
    (Species_Hybrid l) (Infraspecies l) (Variety l) (Subspecies l) (Form l)
    v.

(** Lines 57-65 and 71: every field starts as the empty string. *)
Definition initial (tokens : list str) : locals :=
  Locals [] [] [] [] [] [] [] [] [] tokens.

(** Lines 54-55. The function never reads [hybrid]: line 79 spells the
    list out again. *)
Definition hybrid : list str := [[times]; [times]].
Definition abbreviation_ignore : list str :=
  [lit "cv"; lit "cv."; lit "var"; lit "var."; lit "sp"; lit "sp.";
   lit "ssp"; lit "ssp."; lit "sbsp"; lit "sbsp."; lit "subsp";
   lit "subsp."; lit "X"; lit "x"; [times]; [times]; lit "f."].

(** ** [parse_scientific_name], statement by statement *)

(** Line 68. *)
Definition clean (scientific_name : str) : str :=
  replace
    (replace scientific_name (lit " x ") [space; times; space])
    (lit " X ") [space; times; space].

(** Lines 79-83. The operator [&] evaluates both operands. *)
Definition genus_stage (l : locals) : M locals :=
  t0 ← getitem (scientific_name_tokens l) 0;
  c0 ← str_getitem t0 0;
  l ← (if inlist c0 [[times]; [times]] && negb (length t0 =? 1)
       then
         t0 ← getitem (scientific_name_tokens l) 0;
         toks ← setitem (scientific_name_tokens l) 0 (drop 1 t0);
         mret (set_tokens toks (set_Genus_Hybrid [times] l))
       else mret l);
  g ← getitem (scientific_name_tokens l) 0;
  mret (set_Genus g l).

(** Lines 86-91. The [elif] condition is evaluated only when the first test
    fails, and then subscripts [tokens[1]] whatever the length is. *)
Definition rank_genus_stage (l : locals) : M locals :=
  if length (scientific_name_tokens l) =? 1
  then mret (set_Taxon_Rank (lit "Genus") l)
  else
    t1 ← getitem (scientific_name_tokens l) 1;
    if (length (scientific_name_tokens l) =? 2)
       && inlist t1 abbreviation_ignore
    then
      toks ← pop (scientific_name_tokens l) 1;
      mret (set_tokens toks (set_Taxon_Rank (lit "Genus") l))
    else mret l.

(** Lines 94-96. *)
Definition species_hybrid_stage (l : locals) : M locals :=
  if existsb (λ item, contains item [times]) (scientific_name_tokens l)
  then
    mret (set_tokens
            (filter (λ token : str, token ≠ [])
               (map (λ token, replace token [times] [])
                  (scientific_name_tokens l)))
            (set_Species_Hybrid [times] l))
  else mret l.

(** Lines 101-103. *)
Definition species_stage (l : locals) : M locals :=
  if 1 <? length (scientific_name_tokens l)
  then
    sp ← getitem (scientific_name_tokens l) 1;
    mret (set_Taxon_Rank (lit "Species") (set_Species sp l))
  else mret l.

(** The body shared by the branches of the three scans, e.g. lines 108-109:
    the subscript is evaluated before either target is bound, so a raised
    exception leaves the locals as they were. *)
Definition take_epithet (abbr : str) (set_field : str → locals → locals)
    (rank : str) (l : locals) : M locals :=
  i ← index (scientific_name_tokens l) abbr;
  v ← getitem (scientific_name_tokens l) (i + 1);
  mret (set_Taxon_Rank rank (set_field v (set_Infraspecies v l))).

(** Lines 106-114. *)
Definition variety_scan `{Stdout} (scientific_name : str) (l : locals)
  : M locals :=
  try_except
    (if inlist (lit "var.") (scientific_name_tokens l)
     then take_epithet (lit "var.") set_Variety (lit "Variety") l
     else if inlist (lit "var") (scientific_name_tokens l)
     then take_epithet (lit "var") set_Variety (lit "Variety") l
     else mret l)
    IndexError
    (_ ← print (lit "variety index out of range: ") scientific_name;
     mret l).

(** Lines 117-131. *)
Definition subspecies_scan `{Stdout} (scientific_name : str) (l : locals)
  : M locals :=
  try_except
    (if inlist (lit "subsp.") (scientific_name_tokens l)
     then take_epithet (lit "subsp.") set_Subspecies (lit "Subspecies") l
     else if inlist (lit "ssp.") (scientific_name_tokens l)
     then take_epithet (lit "ssp.") set_Subspecies (lit "Subspecies") l
     else if inlist (lit "sbsp.") (scientific_name_tokens l)
     then take_epithet (lit "sbsp.") set_Subspecies (lit "Subspecies") l
     else if inlist (lit "subsp") (scientific_name_tokens l)
     then take_epithet (lit "subsp") set_Subspecies (lit "Subspecies") l
     else mret l)
    IndexError
    (_ ← print (lit "subspecies index out of range: ") scientific_name;
     mret l).

(** Lines 136-142. *)
Definition form_scan `{Stdout} (scientific_name : str)
    (ingnore_form : bool) (l : locals) : M locals :=
  if negb ingnore_form
  then
    try_except
      (if inlist (lit "f.") (scientific_name_tokens l)
       then take_epithet (lit "f.") set_Form (lit "Form") l
       else mret l)
      IndexError
      (_ ← print (lit "form index out of range: ") scientific_name;
       mret l)
  else mret l.

(** Lines 144-153. *)
Definition assemble (l : locals) : dict :=
  [(lit "taxon_rank", Taxon_Rank l);
   (lit "genus", Genus l);
   (lit "species", Species l);
   (lit "genus_hybrid", Genus_Hybrid l);
   (lit "species_hybrid", Species_Hybrid l);
   (lit "infraspecies", Infraspecies l);
   (lit "variety", Variety l);
   (lit "subspecies", Subspecies l);
   (lit "form", Form l)].

(** Lines 76-103: the stages that fix genus, species and the working token
    sequence the scans search. *)
Definition classify (l : locals) : M locals :=
  l ← genus_stage l;
  l ← rank_genus_stage l;
  l ← species_hybrid_stage l;
  species_stage l.

(** Lines 106-142. *)
Definition scans `{Stdout} (scientific_name : str) (ingnore_form : bool)
    (l : locals) : M locals :=
  l ← variety_scan scientific_name l;
  l ← subspecies_scan scientific_name l;
  form_scan scientific_name ingnore_form l.

(** Lines 37-155. An input without tokens returns [None] at line 74. *)
Definition parse_scientific_name `{Stdout} (scientific_name : str)
    (ingnore_form : bool) : M (option dict) :=
  let scientific_name_clean := clean scientific_name in
  let scientific_name_tokens := split scientific_name_clean in
  if length scientific_name_tokens =? 0
  then mret None
  else
    l ← classify (initial scientific_name_tokens);
    l ← scans scientific_name ingnore_form l;
    mret (Some (assemble l)).

(** ** [generate_scientific_columns] *)

(** What a cell of the table row holds: a string, or one of the two
    values that stand for missing data, [None] and the float [nan]. *)
Inductive cell :=
| Text (s : str)
| NoValue
| NaN.

Global Instance cell_eq_dec : EqDecision cell.
Proof. solve_decision. Defined.

(** [row[k]] on the table row. *)
Definition row_getitem (row : gmap str cell) (k : str) : M cell :=
  match row !! k with
  | Some v => mret v
  | None => raise KeyError
  end.

(** The call of line 32 with the cell as it is. The parser's first
    statement, line 68, is [scientific_name.replace(...)]: a string has
    the method, [None] and a float do not, and the attribute lookup raises
    before anything else happens. *)
Definition parse_cell `{Stdout} (scientific_name : cell)
    (ingnore_form : bool) : M (option dict) :=
  match scientific_name with
  | Text name => parse_scientific_name name ingnore_form
  | NoValue | NaN => raise AttributeError
  end.

(** [iter(x)] for the value [parse_scientific_name] returned: the keys of a
    dictionary in insertion order; [None] is not iterable. *)
Definition iter_keys (x : option dict) : M (list str) :=
  match x with
  | Some d => mret (d.*1)
  | None => raise TypeError
  end.

(** The loop of lines 33-34 over the remaining keys. *)
Fixpoint copy_fields (keys : list str) (parsed : option dict)
    (row : gmap str cell) : M (gmap str cell) :=
  match keys with
  | [] => mret row
  | key :: keys' =>
      v ← match parsed with
          | Some d => dict_getitem d key
          | None => raise TypeError
          end;
      copy_fields keys' parsed (<[key := Text v]> row)
  end.

(** Lines 32-35. *)
Definition generate_scientific_columns `{Stdout} (row : gmap str cell)
    (scientific_name_col : str) (ignore_form : bool) : M (gmap str cell) :=
  name ← row_getitem row scientific_name_col;
  parsed_scientific_name ← parse_cell name ignore_form;
  keys ← iter_keys parsed_scientific_name;
  copy_fields keys parsed_scientific_name row.

(** ** Notions used to state the properties *)

(** Line 71: the tokens of the cleaned input. *)
Definition tokenize (scientific_name : str) : list str :=
  split (clean scientific_name).

(** A token: a non-empty run of non-blank characters. *)
Definition word (t : str) : Prop :=
  t ≠ [] ∧ Forall (λ c, isspace c = false) t.

(** The token sequence at line 94, when the species-hybrid test runs. *)
Definition detection_tokens (scientific_name : str) : list str :=
  match (l ← genus_stage (initial (tokenize scientific_name));
         rank_genus_stage l) [] with
  | (Ok l, _) => scientific_name_tokens l
  | (Raise _, _) => []
  end.

(** The locals at line 105, before the first scan. *)
Definition classified (scientific_name : str) : locals :=
  match classify (initial (tokenize scientific_name)) [] with
  | (Ok l, _) => l
  | (Raise _, _) => initial []
  end.

(** The working token sequence the three scans search. *)
Definition working_tokens (scientific_name : str) : list str :=
  scientific_name_tokens (classified scientific_name).

(** The lines the three handlers print. *)
Definition variety_diagnostic (scientific_name : str) : str :=
  lit "variety index out of range: " ++ space :: scientific_name.
Definition subspecies_diagnostic (scientific_name : str) : str :=
  lit "subspecies index out of range: " ++ space :: scientific_name.
Definition form_diagnostic (scientific_name : str) : str :=
  lit "form index out of range: " ++ space :: scientific_name.

(** The abbreviations of the three ranks, in the order the scans test
    them. *)
Definition variety_abbreviations : list str := [lit "var."; lit "var"].
Definition subspecies_abbreviations : list str :=
  [lit "subsp."; lit "ssp."; lit "sbsp."; lit "subsp"].
Definition form_abbreviations : list str := [lit "f."].

(** What the specification says a scan does (steps 8 to 10 of its
    algorithm): search the tokens for the abbreviations in priority order,
    the first one present wins; the token right after it is the epithet; an
    abbreviation with no token after it is the out-of-range condition. *)
Inductive scan_result :=
| NoMatch
| MissingEpithet
| Epithet (e : str).

Fixpoint first_present (abbrs : list str) (tokens : list str) : option str :=
  match abbrs with
  | [] => None
  | a :: abbrs' =>
      if inlist a tokens then Some a else first_present abbrs' tokens
  end.

Definition scan_spec (abbrs : list str) (tokens : list str) : scan_result :=
  match first_present abbrs tokens with
  | None => NoMatch
  | Some a =>
      match find_index tokens a with
      | None => NoMatch
      | Some i =>
          match tokens !! (i + 1) with
          | Some e => Epithet e
          | None => MissingEpithet
          end
      end
  end.

(** The form scan is switched off by the flag. *)
Definition form_scan_spec (ingnore_form : bool) (tokens : list str)
  : scan_result :=
  if ingnore_form then NoMatch else scan_spec form_abbreviations tokens.

Definition epithet_of (r : scan_result) : str :=
  match r with
  | Epithet e => e
  | _ => []
  end.

Definition found (r : scan_result) : bool :=
  match r with
  | Epithet _ => true
  | _ => false
  end.

(** The effect the specification gives a scan on the locals: a found
    epithet becomes the infraspecific epithet and the field of the rank, and
    the rank is recorded; otherwise nothing changes. *)
Definition apply_scan (r : scan_result) (set_field : str → locals → locals)
    (rank : str) (l : locals) : locals :=
  match r with
  | Epithet e => set_Taxon_Rank rank (set_field e (set_Infraspecies e l))
  | _ => l
  end.

(** The line a scan reports for a missing epithet. *)
Definition scan_output (r : scan_result) (diagnostic : str) : list str :=
  match r with
  | MissingEpithet => [diagnostic]
  | _ => []
  end.

(** The locals at line 144, when the three scans have returned and the
    dictionary is assembled. *)
Definition final_locals (scientific_name : str) (ingnore_form : bool)
  : locals :=
  let l := classified scientific_name in
  let toks := working_tokens scientific_name in
  apply_scan (form_scan_spec ingnore_form toks) set_Form (lit "Form")
    (apply_scan (scan_spec subspecies_abbreviations toks) set_Subspecies
       (lit "Subspecies")
       (apply_scan (scan_spec variety_abbreviations toks) set_Variety
          (lit "Variety") l)).

(** What a scan does once it is known what the specification's scan
    finds: it records a found epithet, prints its line for a missing one,
    and otherwise does nothing. *)
Definition scan_effect `{Stdout} (r : scan_result)
    (set_field : str → locals → locals) (rank line : str) (l : locals)
  : M locals :=
  match r with
  | MissingEpithet => _ ← write_line line; mret l
  | _ => mret (apply_scan r set_field rank l)
  end.

(** An abbreviation of the list is matched by its scan at the last
    position of the token sequence. *)
Definition matches_last (abbrs : list str) (tokens : list str) : bool :=
  match first_present abbrs tokens with
  | Some a =>
      match find_index tokens a with
      | Some i => S i =? length tokens
      | None => false
      end
  | None => false
  end.

(** Every line the three scans print for a name. *)
Definition diagnostics (scientific_name : str) (ingnore_form : bool)
  : list str :=
  let toks := working_tokens scientific_name in
  scan_output (scan_spec variety_abbreviations toks)
    (variety_diagnostic scientific_name)
  ++ scan_output (scan_spec subspecies_abbreviations toks)
       (subspecies_diagnostic scientific_name)
  ++ scan_output (form_scan_spec ingnore_form toks)
       (form_diagnostic scientific_name).

(** The three scans, their abbreviations, the field each one fills, the
    line each one prints, and the statement block that runs each one. *)
Inductive rank_scan := VarietyScan | SubspeciesScan | FormScan.

Definition abbreviations_of (k : rank_scan) : list str :=
  match k with
  | VarietyScan => variety_abbreviations
  | SubspeciesScan => subspecies_abbreviations
  | FormScan => form_abbreviations
  end.

Definition field_of (k : rank_scan) : str :=
  match k with
  | VarietyScan => lit "variety"
  | SubspeciesScan => lit "subspecies"
  | FormScan => lit "form"
  end.

Definition diagnostic_of (k : rank_scan) (scientific_name : str) : str :=
  match k with
  | VarietyScan => variety_diagnostic scientific_name
  | SubspeciesScan => subspecies_diagnostic scientific_name
  | FormScan => form_diagnostic scientific_name
  end.

Definition run_scan `{Stdout} (k : rank_scan) (scientific_name : str)
    (ingnore_form : bool) (l : locals) : M locals :=
  match k with
  | VarietyScan => variety_scan scientific_name l
  | SubspeciesScan => subspecies_scan scientific_name l
  | FormScan => form_scan scientific_name ingnore_form l
  end.

(** A scan is switched on: only the form scan can be switched off. *)
Definition enabled (k : rank_scan) (ingnore_form : bool) : bool :=
  match k with
  | FormScan => negb ingnore_form
  | _ => true
  end.

(** What the specification's scan finds for each of the three ranks. *)
Definition scan_spec_of (k : rank_scan) (ingnore_form : bool)
    (tokens : list str) : scan_result :=
  if enabled k ingnore_form
  then scan_spec (abbreviations_of k) tokens
  else NoMatch.

(** How many of [variety], [subspecies], [form] are non-empty in a
    returned dictionary. *)
Definition is_set (d : dict) (k : str) : bool :=
  match getfield d k with
  | Some (_ :: _) => true
  | _ => false
  end.

Definition infraspecific_fields_set (d : dict) : nat :=
  Nat.b2n (is_set d (lit "variety"))
  + Nat.b2n (is_set d (lit "subspecies"))
  + Nat.b2n (is_set d (lit "form")).

(** The token test of line 94. *)
Definition has_times (tokens : list str) : bool :=
  existsb (λ item, contains item [times]) tokens.

(** The keys of the returned dictionary, in insertion order. *)
Definition field_names : list str :=
  [lit "taxon_rank"; lit "genus"; lit "species"; lit "genus_hybrid";
   lit "species_hybrid"; lit "infraspecies"; lit "variety";
   lit "subspecies"; lit "form"].

(** Inputs that carry the hybrid sign, for the examples below:
    [Ro×sa canina] and [××Rosa canina]. *)
Definition sign_inside_genus : str := lit "Ro" ++ times :: lit "sa canina".
Definition doubled_sign : str := times :: times :: lit "Rosa canina".

(** Names that hold the lone surrogate U+D800, which a UTF-8 stream cannot
    write: [Rosa \ud800 var.], [Rosa \ud800 subsp.], [Rosa \ud800 f.] and
    [Ro\ud800sa canina var. var.]. *)
Definition surrogate : N := 55296%N.
Definition unprintable_variety : str :=
  lit "Rosa " ++ surrogate :: lit " var.".
Definition unprintable_subspecies : str :=
  lit "Rosa " ++ surrogate :: lit " subsp.".
Definition unprintable_form : str :=
  lit "Rosa " ++ surrogate :: lit " f.".
Definition unprintable_genus : str :=
  lit "Ro" ++ surrogate :: lit "sa canina var. var.".

(** Every line the parser has to print for a name can be written. *)
Definition printable_diagnostics `{Stdout} (scientific_name : str)
    (ingnore_form : bool) : bool :=
  forallb printable (diagnostics scientific_name ingnore_form).

(** The plain string of the round-trip property: genus, species and, when
    it is not empty, the infraspecific epithet, joined by single spaces. *)
Definition recombine (genus species infraspecies : str) : str :=
  genus ++ space :: species
  ++ match infraspecies with
     | [] => []
     | _ => space :: infraspecies
     end.

(** ** Further notions: plain names and normalised tokens *)

(** [" ".join(ws)]. *)
Fixpoint join (ws : list str) : str :=
  match ws with
  | [] => []
  | [w] => w
  | w :: ws' => w ++ space :: join ws'
  end.

(** A plain word of a name: a non-empty string without blanks and without
    the hybrid sign that is none of the ignorable abbreviations. *)
Definition plain (t : str) : bool :=
  match t with [] => false | _ :: _ => true end
  && forallb (λ c, negb (isspace c)) t
  && negb (contains t [times])
  && negb (inlist t abbreviation_ignore).

(** The rank each scan records. *)
Definition rank_name (k : rank_scan) : str :=
  match k with
  | VarietyScan => lit "Variety"
  | SubspeciesScan => lit "Subspecies"
  | FormScan => lit "Form"
  end.

(** What line 68 may do to one token: nothing, or turn a token that is
    the letter [x] or [X] alone into the hybrid sign. *)
Definition normalised (t t' : str) : Prop :=
  t' = t ∨ ((t = lit "x" ∨ t = lit "X") ∧ t' = [times]).

(** One pass of [replace] with a pattern and a text of three characters
    that differ in the middle one only, read as a relation: each
    occurrence taken has its middle character [m] rewritten to [m']. *)
Inductive rewritten (m m' : N) : str → str → Prop :=
| rewritten_nil : rewritten m m' [] []
| rewritten_keep c s s' :
    rewritten m m' s s' → rewritten m m' (c :: s) (c :: s')
| rewritten_hit s s' :
    rewritten m m' s s' →
    rewritten m m' (space :: m :: space :: s) (space :: m' :: space :: s').

(** The lines the parser prints for a name. *)
Definition printed_lines (scientific_name : str) (ingnore_form : bool)
  : list str :=
  let toks := working_tokens scientific_name in
  (if matches_last variety_abbreviations toks
   then [variety_diagnostic scientific_name] else [])
  ++ (if matches_last subspecies_abbreviations toks
      then [subspecies_diagnostic scientific_name] else [])
  ++ (if negb ingnore_form && matches_last form_abbreviations toks
      then [form_diagnostic scientific_name] else []).

(** The dictionary returned for [Rosa canina var. alba subsp. rubra], for
    the examples below. *)
Definition rosa_var_subsp : dict :=
  [(lit "taxon_rank", lit "Subspecies");
   (lit "genus", lit "Rosa");
   (lit "species", lit "canina");
   (lit "genus_hybrid", []);
   (lit "species_hybrid", []);
   (lit "infraspecies", lit "rubra");
   (lit "variety", lit "alba");
   (lit "subspecies", lit "rubra");
   (lit "form", [])].

(** The value the field of rank [k'] holds when only the scan of rank [k]
    found the epithet [e]. *)
Definition epithet_at (k k' : rank_scan) (e : str) : str :=
  match k, k' with
  | VarietyScan, VarietyScan
  | SubspeciesScan, SubspeciesScan
  | FormScan, FormScan => e
  | _, _ => []
  end.

(** * Properties of the built-in operations *)

Lemma startswith_app (s old : str) :
  startswith s old = true → s = old ++ drop (length old) s.
Proof.
  revert s. induction old as [|p old IH]; intros s H; simpl in *.
  - by rewrite drop_0.
  - destruct s as [|c s]; [done|].
    apply andb_true_iff in H as [Hpc Hs]. apply N.eqb_eq in Hpc. subst.
    simpl. f_equal. by apply IH.
Qed.

(** Replacing a pattern that holds a non-blank character by a text that
    holds one keeps a blank string blank and a non-blank string non-blank. *)
Section ReplaceBlank.

Variables old new : str.
Hypothesis Hold : forallb isspace old = false.
Hypothesis Hnew : forallb isspace new = false.

Lemma replace_from_isspace (s : str) (k : nat) :
  forallb isspace (replace_from old new k s) = forallb isspace (drop k s).
Proof.
  revert k. induction s as [|c s IH]; intros k.
  - by destruct k.
  - destruct k as [|k]; [|simpl; apply IH].
    rewrite drop_0.
    change (replace_from old new 0 (c :: s))
      with (if startswith (c :: s) old
            then new ++ replace_from old new (length old - 1) s
            else c :: replace_from old new 0 s).
    destruct (startswith (c :: s) old) eqn:Hsw.
    + rewrite forallb_app, Hnew. apply startswith_app in Hsw.
      rewrite Hsw, forallb_app, Hold. done.
    + cbn [forallb]. by rewrite IH, drop_0.
Qed.

Lemma replace_isspace (s : str) :
  forallb isspace (replace s old new) = forallb isspace s.
Proof. unfold replace. by rewrite replace_from_isspace, drop_0. Qed.

End ReplaceBlank.

Lemma clean_isspace (name : str) :
  forallb isspace (clean name) = forallb isspace name.
Proof. unfold clean. by rewrite !replace_isspace. Qed.

Lemma startswith_nil (s : str) : startswith s [] = true.
Proof. by destruct s. Qed.

(** Removing a single character with [replace] is a filter. *)
Lemma replace_char_filter (x : N) (s : str) :
  replace s [x] [] = filter (λ c, c ≠ x) s.
Proof.
  unfold replace. induction s as [|c s IH]; [done|]. simpl.
  destruct (N.eqb_spec x c) as [->|Hne]; simpl; rewrite ?startswith_nil.
  - rewrite filter_cons_False by (intros H; by apply H). apply IH.
  - rewrite filter_cons_True by congruence. by rewrite IH.
Qed.

Lemma contains_char (x : N) (s : str) :
  contains s [x] = true ↔ x ∈ s.
Proof.
  induction s as [|c s IH]; simpl.
  - split; [done|]. intros H. inversion H.
  - rewrite orb_true_iff, IH, elem_of_cons.
    destruct (N.eqb_spec x c); simpl; rewrite ?startswith_nil;
      intuition congruence.
Qed.

Lemma split_from_tokens (s cur : str) :
  Forall (λ c, isspace c = false) cur →
  Forall (λ t : str, t ≠ [] ∧ Forall (λ c, isspace c = false) t)
    (split_from cur s).
Proof.
  revert cur. induction s as [|c s IH]; intros cur Hcur; simpl.
  - destruct cur as [|d cur]; [constructor|].
    repeat constructor.
    + intros H. apply (f_equal length) in H.
      rewrite length_reverse in H. done.
    + by apply Forall_reverse.
  - destruct (isspace c) eqn:Hc.
    + destruct cur as [|d cur]; [by apply IH|].
      constructor; [split|by apply IH].
      * intros H. apply (f_equal length) in H.
        rewrite length_reverse in H. done.
      * by apply Forall_reverse.
    + apply IH. by constructor.
Qed.

Lemma split_from_nil (s cur : str) :
  split_from cur s = [] ↔ cur = [] ∧ forallb isspace s = true.
Proof.
  revert cur. induction s as [|c s IH]; intros cur; simpl.
  - destruct cur; intuition congruence.
  - destruct (isspace c) eqn:Hc; simpl.
    + destruct cur as [|d cur]; [apply IH|intuition congruence].
    + rewrite IH. intuition congruence.
Qed.

Lemma split_from_word (w rest cur : str) :
  Forall (λ c, isspace c = false) w →
  split_from cur (w ++ rest) = split_from (reverse w ++ cur) rest.
Proof.
  revert cur. induction w as [|c w IH]; intros cur Hw; [done|].
  inversion Hw as [|? ? Hc Hw']; subst. simpl. rewrite Hc.
  rewrite IH by done. by rewrite reverse_cons, <- app_assoc.
Qed.

Lemma split_tokens (s : str) :
  Forall (λ t : str, t ≠ [] ∧ Forall (λ c, isspace c = false) t) (split s).
Proof. apply split_from_tokens. constructor. Qed.

Lemma split_nil (s : str) : split s = [] ↔ forallb isspace s = true.
Proof. unfold split. rewrite split_from_nil. intuition. Qed.

(** A word followed by a blank is the first token of the string. *)
Lemma split_word_cons (w rest : str) (b : N) :
  w ≠ [] → Forall (λ c, isspace c = false) w → isspace b = true →
  split (w ++ b :: rest) = w :: split rest.
Proof.
  intros Hne Hw Hb. unfold split. rewrite split_from_word by done.
  simpl. rewrite Hb, app_nil_r.
  destruct (reverse w) eqn:Hr.
  - apply (f_equal length) in Hr. rewrite length_reverse in Hr.
    destruct w; done.
  - by rewrite <- Hr, reverse_involutive.
Qed.

Lemma split_word (w : str) :
  w ≠ [] → Forall (λ c, isspace c = false) w → split w = [w].
Proof.
  intros Hne Hw. unfold split.
  rewrite <- (app_nil_r w) at 1. rewrite split_from_word by done.
  simpl. rewrite app_nil_r.
  destruct (reverse w) eqn:Hr.
  - apply (f_equal length) in Hr. rewrite length_reverse in Hr.
    destruct w; done.
  - by rewrite <- Hr, reverse_involutive.
Qed.

(** * The stages of [parse_scientific_name] in closed form *)

Ltac mstep :=
  unfold mbind, M_bind, mret, M_ret, raise, getitem, str_getitem, setitem,
    pop, index; simpl.

Lemma inlist_times (c : N) :
  inlist [c] [[times]; [times]] = (c =? times)%N.
Proof.
  unfold inlist. destruct (N.eqb_spec c times) as [->|Hne].
  - apply bool_decide_eq_true. constructor.
  - apply bool_decide_eq_false. intros H.
    repeat (apply elem_of_cons in H as [[= ?]|H]; [done|]).
    inversion H.
Qed.

Lemma genus_stage_run (l : locals) (c : N) (t : str) (ts : list str) out :
  scientific_name_tokens l = (c :: t) :: ts →
  genus_stage l out =
    (Ok (if (c =? times)%N && negb (length t =? 0)
         then set_Genus t
                (set_tokens (t :: ts) (set_Genus_Hybrid [times] l))
         else set_Genus (c :: t) l), out).
Proof.
  intros H. unfold genus_stage. mstep. rewrite H. simpl.
  rewrite inlist_times.
  destruct ((c =? times)%N && negb (length t =? 0)); simpl;
    by rewrite ?H, ?drop_0.
Qed.

Lemma rank_genus_stage_run (l : locals) (g : str) (ts : list str) out :
  scientific_name_tokens l = g :: ts →
  rank_genus_stage l out =
    (Ok (match ts with
         | [] => set_Taxon_Rank (lit "Genus") l
         | [a] =>
             if inlist a abbreviation_ignore
             then set_tokens [g] (set_Taxon_Rank (lit "Genus") l)
             else l
         | _ => l
         end), out).
Proof.
  intros H. unfold rank_genus_stage. mstep. rewrite H.
  destruct ts as [|a [|b ts]]; simpl; [done| |done].
  by destruct (inlist a abbreviation_ignore).
Qed.

Lemma species_hybrid_stage_run (l : locals) out :
  species_hybrid_stage l out =
    (Ok (if existsb (λ item, contains item [times])
              (scientific_name_tokens l)
         then set_tokens
                (filter (λ token : str, token ≠ [])
                   (map (λ token, replace token [times] [])
                      (scientific_name_tokens l)))
                (set_Species_Hybrid [times] l)
         else l), out).
Proof.
  unfold species_hybrid_stage.
  by destruct (existsb _ (scientific_name_tokens l)).
Qed.

Lemma species_stage_run (l : locals) out :
  species_stage l out =
    (Ok (match scientific_name_tokens l with
         | _ :: sp :: _ =>
             set_Taxon_Rank (lit "Species") (set_Species sp l)
         | _ => l
         end), out).
Proof.
  unfold species_stage. mstep.
  by destruct (scientific_name_tokens l) as [|a [|b ts]].
Qed.

(** Lines 76-103 never raise on a token list whose first token is not
    empty, print nothing, and leave the locals below. *)
Lemma classify_run (c : N) (t : str) (ts : list str) out :
  let b := (c =? times)%N && negb (length t =? 0) in
  let g := if b then t else c :: t in
  let toks2 :=
    match ts with
    | [a] => if inlist a abbreviation_ignore then [g] else [g; a]
    | _ => g :: ts
    end in
  let rank1 :=
    match ts with
    | [] => lit "Genus"
    | [a] => if inlist a abbreviation_ignore then lit "Genus" else []
    | _ => []
    end in
  let sh := existsb (λ item, contains item [times]) toks2 in
  let toks3 :=
    if sh
    then filter (λ token : str, token ≠ [])
           (map (λ token, replace token [times] []) toks2)
    else toks2 in
  classify (initial ((c :: t) :: ts)) out =
    (Ok (Locals
           (match toks3 with _ :: _ :: _ => lit "Species" | _ => rank1 end)
           g
           (match toks3 with _ :: sp :: _ => sp | _ => [] end)
           (if b then [times] else [])
           (if sh then [times] else [])
           [] [] [] [] toks3), out).
Proof.
  intros b g toks2 rank1 sh toks3. unfold classify.
  unfold mbind at 1 2 3. unfold M_bind.
  rewrite (genus_stage_run _ c t ts) by done. fold b.
  set (l1 := if b then _ else _).
  assert (Hl1 : l1 = Locals [] g [] (if b then [times] else []) [] [] [] []
                       [] (g :: ts)).
  { subst l1 g. by destruct b. }
  rewrite Hl1. clear l1 Hl1.
  rewrite (rank_genus_stage_run _ g ts) by done.
  set (l2 := match ts with [] => _ | _ => _ end).
  assert (Hl2 : l2 = Locals rank1 g [] (if b then [times] else []) [] [] []
                       [] [] toks2).
  { subst l2 rank1 toks2. destruct ts as [|a [|a' ts]]; try done.
    by destruct (inlist a abbreviation_ignore). }
  rewrite Hl2. clear l2 Hl2.
  rewrite species_hybrid_stage_run. simpl scientific_name_tokens. fold sh.
  set (l3 := if sh then _ else _).
  assert (Hl3 : l3 = Locals rank1 g [] (if b then [times] else [])
                       (if sh then [times] else []) [] [] [] [] toks3).
  { subst l3 toks3. by destruct sh. }
  rewrite Hl3. clear l3 Hl3.
  rewrite species_stage_run. simpl scientific_name_tokens.
  by destruct toks3 as [|x [|y r]].
Qed.

(** * The three scans refine the specification's scan *)

Lemma find_index_Some (toks : list str) (x : str) (i : nat) :
  find_index toks x = Some i →
  toks !! i = Some x ∧ ∀ j, j < i → toks !! j ≠ Some x.
Proof.
  revert i. induction toks as [|y toks IH]; intros i; simpl; [done|].
  destruct (decide (y = x)) as [->|Hne].
  - intros [= <-]. split; [done|]. lia.
  - destruct (find_index toks x) as [k|] eqn:Hk; simpl; [|done].
    intros [= <-]. destruct (IH k eq_refl) as [Hx Hfirst].
    split; [done|]. intros [|j] Hj; simpl; [congruence|].
    apply Hfirst. lia.
Qed.

Lemma inlist_find_index (toks : list str) (x : str) :
  inlist x toks = true → is_Some (find_index toks x).
Proof.
  unfold inlist. rewrite bool_decide_eq_true.
  induction toks as [|y toks IH]; simpl.
  - intros H. inversion H.
  - intros H. destruct (decide (y = x)); [eauto|].
    apply elem_of_cons in H as [->|H]; [done|].
    destruct (IH H) as [k ->]. simpl. eauto.
Qed.

Lemma try_except_if {A} (b : bool) (m1 m2 h : M A) (e : exn) out :
  try_except (if b then m1 else m2) e h out
  = if b then try_except m1 e h out else try_except m2 e h out.
Proof. by destruct b. Qed.

(** One branch of a scan, under its handler. *)
Lemma take_epithet_run `{Stdout} (a diag_head name rank : str)
    (set_field : str → locals → locals) (l : locals) out :
  inlist a (scientific_name_tokens l) = true →
  try_except (take_epithet a set_field rank l) IndexError
    (_ ← print diag_head name; mret l) out
  = scan_effect (scan_spec [a] (scientific_name_tokens l)) set_field rank
      (diag_head ++ space :: name) l out.
Proof.
  intros Hin. unfold scan_spec, first_present. rewrite Hin.
  destruct (inlist_find_index _ _ Hin) as [i Hi].
  unfold try_except, take_epithet, print. mstep. rewrite Hi. simpl.
  by destruct (scientific_name_tokens l !! (i + 1)).
Qed.

Lemma scan_spec_cons_present (a : str) (abbrs toks : list str) :
  inlist a toks = true → scan_spec (a :: abbrs) toks = scan_spec [a] toks.
Proof. intros H. unfold scan_spec. simpl. by rewrite H. Qed.

Lemma scan_spec_cons_absent (a : str) (abbrs toks : list str) :
  inlist a toks = false → scan_spec (a :: abbrs) toks = scan_spec abbrs toks.
Proof. intros H. unfold scan_spec. simpl. by rewrite H. Qed.

Ltac scan_branch :=
  match goal with
  | |- context [try_except (if inlist ?a ?toks then _ else _)] =>
      let H := fresh "Hin" in
      rewrite try_except_if;
      destruct (inlist a toks) eqn:H;
      [ try (rewrite (scan_spec_cons_present a) by exact H);
        by apply take_epithet_run
      | rewrite (scan_spec_cons_absent a) by exact H ]
  end.

(** Each scan of the code does what the specification's scan says, and
    raises only if it has a line to print that cannot be written. *)
Lemma variety_scan_run `{Stdout} (name : str) (l : locals) out :
  variety_scan name l out
  = scan_effect (scan_spec variety_abbreviations (scientific_name_tokens l))
      set_Variety (lit "Variety") (variety_diagnostic name) l out.
Proof.
  unfold variety_scan, variety_abbreviations, variety_diagnostic.
  by do 2 scan_branch.
Qed.

Lemma subspecies_scan_run `{Stdout} (name : str) (l : locals) out :
  subspecies_scan name l out
  = scan_effect
      (scan_spec subspecies_abbreviations (scientific_name_tokens l))
      set_Subspecies (lit "Subspecies") (subspecies_diagnostic name) l out.
Proof.
  unfold subspecies_scan, subspecies_abbreviations, subspecies_diagnostic.
  by do 4 scan_branch.
Qed.

Lemma form_scan_run `{Stdout} (name : str) (flag : bool) (l : locals) out :
  form_scan name flag l out
  = scan_effect (form_scan_spec flag (scientific_name_tokens l))
      set_Form (lit "Form") (form_diagnostic name) l out.
Proof.
  unfold form_scan, form_scan_spec, form_abbreviations, form_diagnostic.
  destruct flag; cbn [negb]; cbv iota; [done|].
  by scan_branch.
Qed.

Lemma scan_effect_ok `{Stdout} (r : scan_result)
    (set_field : str → locals → locals) (rank line : str) (l : locals)
    out :
  forallb printable (scan_output r line) = true →
  scan_effect r set_field rank line l out
  = (Ok (apply_scan r set_field rank l), out ++ scan_output r line).
Proof.
  destruct r; simpl; intros Hp; rewrite ?app_nil_r; try done.
  unfold mbind, M_bind, write_line.
  apply andb_true_iff in Hp as [-> _]. done.
Qed.

Lemma scan_effect_raise `{Stdout} (r : scan_result)
    (set_field : str → locals → locals) (rank line : str) (l : locals)
    out :
  forallb printable (scan_output r line) = false →
  scan_effect r set_field rank line l out = (Raise UnicodeEncodeError, out).
Proof.
  destruct r; simpl; intros Hp; try done.
  unfold mbind, M_bind, write_line.
  rewrite andb_true_r in Hp. by rewrite Hp.
Qed.

Lemma apply_scan_tokens (r : scan_result) set_field rank (l : locals) :
  (∀ v l', scientific_name_tokens (set_field v l')
           = scientific_name_tokens l') →
  scientific_name_tokens (apply_scan r set_field rank l)
  = scientific_name_tokens l.
Proof. intros H. destruct r; simpl; try done. by rewrite H. Qed.

(** Lines 106-142 when every line due can be written: the three scans run
    one after the other on the same token sequence, whatever the earlier
    ones matched. *)
Lemma scans_run `{Stdout} (name : str) (flag : bool) (l : locals) out :
  let toks := scientific_name_tokens l in
  let v := scan_spec variety_abbreviations toks in
  let s := scan_spec subspecies_abbreviations toks in
  let f := form_scan_spec flag toks in
  forallb printable
    (scan_output v (variety_diagnostic name)
     ++ scan_output s (subspecies_diagnostic name)
     ++ scan_output f (form_diagnostic name)) = true →
  scans name flag l out
  = (Ok (apply_scan f set_Form (lit "Form")
           (apply_scan s set_Subspecies (lit "Subspecies")
              (apply_scan v set_Variety (lit "Variety") l))),
     out ++ scan_output v (variety_diagnostic name)
         ++ scan_output s (subspecies_diagnostic name)
         ++ scan_output f (form_diagnostic name)).
Proof.
  intros toks v s f Hp. rewrite !forallb_app in Hp.
  apply andb_true_iff in Hp as [Hv Hp].
  apply andb_true_iff in Hp as [Hs Hf].
  unfold scans, mbind, M_bind.
  rewrite variety_scan_run. fold toks v. rewrite scan_effect_ok by done.
  rewrite subspecies_scan_run, apply_scan_tokens by done. fold toks s.
  rewrite scan_effect_ok by done.
  rewrite form_scan_run, !apply_scan_tokens by done. fold toks f.
  rewrite scan_effect_ok by done.
  by rewrite <- !app_assoc.
Qed.

(** Lines 106-142 when some line due cannot be written: the [print] of
    that handler raises, and nothing catches it. *)
Lemma scans_raise `{Stdout} (name : str) (flag : bool) (l : locals) out :
  let toks := scientific_name_tokens l in
  let v := scan_spec variety_abbreviations toks in
  let s := scan_spec subspecies_abbreviations toks in
  let f := form_scan_spec flag toks in
  forallb printable
    (scan_output v (variety_diagnostic name)
     ++ scan_output s (subspecies_diagnostic name)
     ++ scan_output f (form_diagnostic name)) = false →
  ∃ out', scans name flag l out = (Raise UnicodeEncodeError, out').
Proof.
  intros toks v s f Hp. rewrite !forallb_app in Hp.
  unfold scans, mbind, M_bind.
  rewrite variety_scan_run. fold toks v.
  destruct (forallb printable (scan_output v (variety_diagnostic name)))
    eqn:Hv; [|rewrite scan_effect_raise by done; eauto].
  rewrite scan_effect_ok by done.
  rewrite subspecies_scan_run, apply_scan_tokens by done. fold toks s.
  destruct (forallb printable (scan_output s (subspecies_diagnostic name)))
    eqn:Hs; [|rewrite scan_effect_raise by done; eauto].
  rewrite scan_effect_ok by done.
  rewrite form_scan_run, !apply_scan_tokens by done. fold toks f.
  simpl in Hp. rewrite scan_effect_raise by done. eauto.
Qed.

(** * The whole function in closed form *)

Lemma tokenize_first (name : str) (t : str) (ts : list str) :
  tokenize name = t :: ts → ∃ c t', t = c :: t'.
Proof.
  intros H. pose proof (split_tokens (clean name)) as Hall.
  unfold tokenize in H. rewrite H in Hall.
  apply Forall_cons in Hall as [[Hne _] _].
  destruct t as [|c t']; [done|eauto].
Qed.

Lemma tokenize_nil (name : str) :
  tokenize name = [] ↔ forallb isspace name = true.
Proof. unfold tokenize. by rewrite split_nil, clean_isspace. Qed.

Lemma tokenize_nil_split (name : str) :
  tokenize name = [] ↔ split name = [].
Proof. by rewrite tokenize_nil, split_nil. Qed.

Lemma classified_eq (name : str) (c : N) (t : str) (ts : list str) out :
  tokenize name = (c :: t) :: ts →
  classify (initial (tokenize name)) out = (Ok (classified name), out).
Proof.
  intros H. unfold classified. rewrite H.
  by rewrite (classify_run c t ts out), (classify_run c t ts []).
Qed.

Lemma final_locals_eq (name : str) (flag : bool) :
  let toks := working_tokens name in
  final_locals name flag
  = apply_scan (form_scan_spec flag toks) set_Form (lit "Form")
      (apply_scan (scan_spec subspecies_abbreviations toks) set_Subspecies
         (lit "Subspecies")
         (apply_scan (scan_spec variety_abbreviations toks) set_Variety
            (lit "Variety") (classified name))).
Proof. done. Qed.

Lemma parse_None `{Stdout} (name : str) (flag : bool) out :
  tokenize name = [] →
  parse_scientific_name name flag out = (Ok None, out).
Proof.
  intros H0. unfold parse_scientific_name. fold (tokenize name).
  by rewrite H0.
Qed.

Lemma parse_scans `{Stdout} (name : str) (flag : bool) out :
  tokenize name ≠ [] →
  parse_scientific_name name flag out
  = match scans name flag (classified name) out with
    | (Ok l, out') => (Ok (Some (assemble l)), out')
    | (Raise e, out') => (Raise e, out')
    end.
Proof.
  intros Hne. unfold parse_scientific_name. fold (tokenize name).
  destruct (tokenize name) as [|t ts] eqn:Htok; [done|].
  destruct (tokenize_first _ _ _ Htok) as (c & t' & ->).
  cbn [length Nat.eqb]. cbv iota. rewrite <- Htok.
  unfold mbind at 1 2. unfold M_bind.
  rewrite (classified_eq name c t' ts) by done.
  by destruct (scans name flag (classified name) out) as [[l|e] out'].
Qed.

(** A name with tokens, when every line due can be written. *)
Lemma parse_Some `{Stdout} (name : str) (flag : bool) out :
  tokenize name ≠ [] →
  printable_diagnostics name flag = true →
  parse_scientific_name name flag out
  = (Ok (Some (assemble (final_locals name flag))),
     out ++ diagnostics name flag).
Proof.
  intros Hne Hp. rewrite parse_scans by done.
  unfold printable_diagnostics, diagnostics in Hp.
  by rewrite scans_run.
Qed.

(** A name with tokens, when some line due cannot be written. *)
Lemma parse_raise `{Stdout} (name : str) (flag : bool) out :
  tokenize name ≠ [] →
  printable_diagnostics name flag = false →
  ∃ out',
    parse_scientific_name name flag out = (Raise UnicodeEncodeError, out').
Proof.
  intros Hne Hp. rewrite parse_scans by done.
  unfold printable_diagnostics, diagnostics in Hp.
  destruct (scans_raise name flag (classified name) out Hp) as [out' ->].
  eauto.
Qed.

(** What a call returned, read backwards. *)
Lemma parse_returns `{Stdout} (name : str) (flag : bool) out (d : dict)
    out' :
  parse_scientific_name name flag out = (Ok (Some d), out') →
  tokenize name ≠ [] ∧ d = assemble (final_locals name flag)
  ∧ out' = out ++ diagnostics name flag.
Proof.
  intros Hrun. destruct (tokenize name) as [|t ts] eqn:Htok.
  - by rewrite parse_None in Hrun.
  - assert (Hne : tokenize name ≠ []) by (by rewrite Htok).
    rewrite <- Htok.
    destruct (printable_diagnostics name flag) eqn:Hp.
    + rewrite parse_Some in Hrun by done. by inversion Hrun.
    + destruct (parse_raise name flag out Hne Hp) as [out1 Hr].
      congruence.
Qed.


(** A name that has nothing to print is parsed whatever the stream. *)
Lemma parse_silent `{Stdout} (name : str) (flag : bool) out :
  tokenize name ≠ [] →
  diagnostics name flag = [] →
  parse_scientific_name name flag out
  = (Ok (Some (assemble (final_locals name flag))), out).
Proof.
  intros Hne Hd. rewrite parse_Some; [|done|].
  - by rewrite Hd, app_nil_r.
  - unfold printable_diagnostics. by rewrite Hd.
Qed.

(** The fields of the classified locals in terms of the tokens. *)
Lemma classified_fields (name : str) (c : N) (t : str) (ts : list str) :
  tokenize name = (c :: t) :: ts →
  let b := (c =? times)%N && negb (length t =? 0) in
  let g := if b then t else c :: t in
  let sh := existsb (λ item, contains item [times]) (detection_tokens name) in
  detection_tokens name
  = match ts with
    | [a] => if inlist a abbreviation_ignore then [g] else [g; a]
    | _ => g :: ts
    end
  ∧ working_tokens name
    = (if sh
       then filter (λ token : str, token ≠ [])
              (map (λ token, replace token [times] [])
                 (detection_tokens name))
       else detection_tokens name)
  ∧ Genus (classified name) = g
  ∧ Genus_Hybrid (classified name) = (if b then [times] else [])
  ∧ Species_Hybrid (classified name) = (if sh then [times] else [])
  ∧ Species (classified name)
    = match working_tokens name with _ :: sp :: _ => sp | _ => [] end
  ∧ Taxon_Rank (classified name)
    = match working_tokens name with
      | _ :: _ :: _ => lit "Species"
      | _ =>
          match ts with
          | [] => lit "Genus"
          | [a] => if inlist a abbreviation_ignore then lit "Genus" else []
          | _ => []
          end
      end.
Proof.
  intros Htok b g sh.
  assert (Hdet : detection_tokens name
                 = match ts with
                   | [a] => if inlist a abbreviation_ignore
                            then [g] else [g; a]
                   | _ => g :: ts
                   end).
  { unfold detection_tokens. rewrite Htok. unfold mbind, M_bind.
    rewrite (genus_stage_run _ c t ts) by done. fold b.
    set (l1 := if b then _ else _).
    assert (Hl1 : scientific_name_tokens l1 = g :: ts)
      by (subst l1 g; by destruct b).
    rewrite (rank_genus_stage_run _ g ts) by done.
    destruct ts as [|a [|a' ts']]; try done.
    by destruct (inlist a abbreviation_ignore). }
  unfold working_tokens, classified. subst sh. rewrite Hdet, Htok.
  rewrite (classify_run c t ts []). fold b g. simpl. done.
Qed.

(** Before the scans, the infraspecific fields are empty. *)
Lemma classified_infraspecific (name : str) :
  Infraspecies (classified name) = [] ∧ Variety (classified name) = []
  ∧ Subspecies (classified name) = [] ∧ Form (classified name) = [].
Proof.
  unfold classified.
  destruct (tokenize name) as [|t ts] eqn:Htok; [done|].
  destruct (tokenize_first _ _ _ Htok) as (c & t' & ->).
  by rewrite (classify_run c t' ts []).
Qed.

Lemma working_tokens_nil (name : str) :
  tokenize name = [] → working_tokens name = [].
Proof. intros H. unfold working_tokens, classified. by rewrite H. Qed.

(** * Invariants of the token sequences and of the final locals *)

Lemma tokenize_words (name : str) : Forall word (tokenize name).
Proof. apply split_tokens. Qed.

Lemma word_tail (c : N) (t : str) : word (c :: t) → t ≠ [] → word t.
Proof. intros [_ H] Hne. split; [done|]. by inversion H. Qed.

Lemma detection_tokens_words (name : str) :
  Forall word (detection_tokens name).
Proof.
  destruct (tokenize name) as [|t ts] eqn:Htok.
  - unfold detection_tokens. rewrite Htok. done.
  - destruct (tokenize_first _ _ _ Htok) as (c & t' & ->).
    destruct (classified_fields name c t' ts Htok) as (-> & _).
    pose proof (tokenize_words name) as Hall. rewrite Htok in Hall.
    apply Forall_cons in Hall as [Hw Hts].
    assert (Hg : word (if (c =? times)%N && negb (length t' =? 0)
                       then t' else c :: t')).
    { destruct (c =? times)%N; simpl; [|done].
      destruct t' as [|c' t'']; simpl; [done|].
      by apply (word_tail c). }
    destruct ts as [|a [|a' ts']]; [|destruct (inlist a abbreviation_ignore)|];
      auto using Forall_cons_2, Forall_nil_2.
Qed.

Lemma working_tokens_words (name : str) :
  Forall word (working_tokens name).
Proof.
  destruct (tokenize name) as [|t ts] eqn:Htok.
  - by rewrite working_tokens_nil.
  - destruct (tokenize_first _ _ _ Htok) as (c & t' & ->).
    destruct (classified_fields name c t' ts Htok) as (_ & -> & _).
    pose proof (detection_tokens_words name) as Hall.
    destruct (existsb _ (detection_tokens name)); [|done].
    apply Forall_forall. intros x Hx.
    apply list_elem_of_filter in Hx as [Hne Hx].
    apply list_elem_of_fmap in Hx as (y & -> & Hy).
    split; [done|]. rewrite replace_char_filter.
    rewrite Forall_forall in Hall. destruct (Hall y Hy) as [_ Hyw].
    rewrite Forall_forall in Hyw |- *. intros c0 Hc0.
    apply list_elem_of_filter in Hc0 as [_ Hc0]. by apply Hyw.
Qed.

(** When the hybrid sign was found at line 94, no working token holds it. *)
Lemma working_tokens_no_times (name : str) :
  Forall (λ t : str, times ∉ t) (working_tokens name).
Proof.
  destruct (tokenize name) as [|t ts] eqn:Htok.
  - by rewrite working_tokens_nil.
  - destruct (tokenize_first _ _ _ Htok) as (c & t' & ->).
    destruct (classified_fields name c t' ts Htok) as (_ & -> & _).
    destruct (existsb _ (detection_tokens name)) eqn:Hsh.
    + apply Forall_forall. intros x Hx.
      apply list_elem_of_filter in Hx as [_ Hx].
      apply list_elem_of_fmap in Hx as (y & -> & _).
      rewrite replace_char_filter. intros Hin.
      by apply list_elem_of_filter in Hin as [Hne _].
    + apply Forall_forall. intros x Hx Hin.
      apply contains_char in Hin.
      assert (existsb (λ item, contains item [times])
                (detection_tokens name) = true) as Habs; [|congruence].
      apply existsb_exists. exists x. split; [|done].
      by apply list_elem_of_In.
Qed.

Lemma scan_spec_elem (abbrs toks : list str) (e : str) :
  scan_spec abbrs toks = Epithet e → e ∈ toks.
Proof.
  unfold scan_spec. destruct (first_present abbrs toks) as [a|]; [|done].
  destruct (find_index toks a) as [i|]; [|done].
  destruct (toks !! (i + 1)) eqn:H; [|done].
  intros [= <-]. by eapply list_elem_of_lookup_2.
Qed.

Lemma form_scan_spec_elem (flag : bool) (toks : list str) (e : str) :
  form_scan_spec flag toks = Epithet e → e ∈ toks.
Proof.
  unfold form_scan_spec. destruct flag; [done|]. apply scan_spec_elem.
Qed.

(** An epithet a scan finds is a working token, hence not empty. *)
Lemma epithet_nonempty (name : str) (r : scan_result) :
  (∀ e, r = Epithet e → e ∈ working_tokens name) →
  epithet_of r ≠ [] ↔ found r = true.
Proof.
  intros H. destruct r as [| |e]; simpl; [done|done|].
  split; [done|]. intros _.
  pose proof (working_tokens_words name) as Hall.
  rewrite Forall_forall in Hall. by apply (Hall e), H.
Qed.

(** The nine locals when the dictionary is assembled. *)
Lemma final_locals_fields (name : str) (flag : bool) :
  let toks := working_tokens name in
  let v := scan_spec variety_abbreviations toks in
  let s := scan_spec subspecies_abbreviations toks in
  let f := form_scan_spec flag toks in
  let l := final_locals name flag in
  Genus l = Genus (classified name)
  ∧ Species l = Species (classified name)
  ∧ Genus_Hybrid l = Genus_Hybrid (classified name)
  ∧ Species_Hybrid l = Species_Hybrid (classified name)
  ∧ Variety l = epithet_of v
  ∧ Subspecies l = epithet_of s
  ∧ Form l = epithet_of f
  ∧ Infraspecies l
    = (if found f then epithet_of f
       else if found s then epithet_of s else epithet_of v)
  ∧ Taxon_Rank l
    = (if found f then lit "Form"
       else if found s then lit "Subspecies"
       else if found v then lit "Variety"
       else Taxon_Rank (classified name)).
Proof.
  intros toks v s f l. subst l. rewrite final_locals_eq. fold toks v s f.
  destruct (classified_infraspecific name) as (Hi & Hv & Hs & Hf).
  destruct v, s, f; simpl; rewrite ?Hi, ?Hv, ?Hs, ?Hf; done.
Qed.

Lemma matches_last_missing (abbrs toks : list str) :
  matches_last abbrs toks = true ↔ scan_spec abbrs toks = MissingEpithet.
Proof.
  unfold matches_last, scan_spec.
  destruct (first_present abbrs toks) as [a|]; [|done].
  destruct (find_index toks a) as [i|] eqn:Hi; [|done].
  apply find_index_Some in Hi as [Hi _]. apply lookup_lt_Some in Hi.
  rewrite Nat.eqb_eq.
  destruct (toks !! (i + 1)) eqn:Hnext.
  - apply lookup_lt_Some in Hnext. split; [lia|done].
  - apply lookup_ge_None in Hnext. split; [done|lia].
Qed.

Lemma form_scan_spec_of (flag : bool) (toks : list str) :
  form_scan_spec flag toks = scan_spec_of FormScan flag toks.
Proof. by destruct flag. Qed.

Lemma assemble_fields (l : locals) :
  getfield (assemble l) (lit "taxon_rank") = Some (Taxon_Rank l)
  ∧ getfield (assemble l) (lit "genus") = Some (Genus l)
  ∧ getfield (assemble l) (lit "species") = Some (Species l)
  ∧ getfield (assemble l) (lit "genus_hybrid") = Some (Genus_Hybrid l)
  ∧ getfield (assemble l) (lit "species_hybrid") = Some (Species_Hybrid l)
  ∧ getfield (assemble l) (lit "infraspecies") = Some (Infraspecies l)
  ∧ getfield (assemble l) (lit "variety") = Some (Variety l)
  ∧ getfield (assemble l) (lit "subspecies") = Some (Subspecies l)
  ∧ getfield (assemble l) (lit "form") = Some (Form l).
Proof. repeat split. Qed.

(** The field of each rank holds what the scan of that rank found. *)
Lemma final_field_of (name : str) (flag : bool) (k : rank_scan) :
  getfield (assemble (final_locals name flag)) (field_of k)
  = Some (epithet_of (scan_spec_of k flag (working_tokens name))).
Proof.
  destruct (final_locals_fields name flag)
    as (_ & _ & _ & _ & Hv & Hs & Hf & _).
  destruct (assemble_fields (final_locals name flag))
    as (_ & _ & _ & _ & _ & _ & Hgv & Hgs & Hgf).
  destruct k; simpl field_of.
  - by rewrite Hgv, Hv.
  - by rewrite Hgs, Hs.
  - by rewrite Hgf, Hf, form_scan_spec_of.
Qed.

(** * The examples of the documentation, evaluated *)

Example parse_genus :
  parse_scientific_name (lit "Rosa") false []
  = (Ok (Some (assemble
                 (Locals (lit "Genus") (lit "Rosa") [] [] [] [] [] [] []
                    []))), []).
Proof. by vm_compute. Qed.

Example parse_genus_with_abbreviation :
  parse_scientific_name (lit "Rosa cv.") false []
  = (Ok (Some (assemble
                 (Locals (lit "Genus") (lit "Rosa") [] [] [] [] [] [] []
                    []))), []).
Proof. by vm_compute. Qed.

Example parse_species :
  parse_scientific_name (lit "Rosa canina") false []
  = (Ok (Some (assemble
                 (Locals (lit "Species") (lit "Rosa") (lit "canina") [] []
                    [] [] [] [] []))), []).
Proof. by vm_compute. Qed.

Example parse_species_hybrid :
  parse_scientific_name (lit "Rosa " ++ times :: lit " damascena") false []
  = parse_scientific_name (lit "Rosa x damascena") false []
  ∧ parse_scientific_name (lit "Rosa X damascena") false []
    = (Ok (Some (assemble
                   (Locals (lit "Species") (lit "Rosa") (lit "damascena")
                      [] [times] [] [] [] [] []))), []).
Proof. by vm_compute. Qed.

Example parse_subspecies :
  parse_scientific_name (lit "Rosa canina subsp. dumetorum") false []
  = (Ok (Some (assemble
                 (Locals (lit "Subspecies") (lit "Rosa") (lit "canina") []
                    [] (lit "dumetorum") [] (lit "dumetorum") [] []))), []).
Proof. by vm_compute. Qed.

Example parse_form_ignored :
  parse_scientific_name (lit "Rosa canina f. alba") true []
  = (Ok (Some (assemble
                 (Locals (lit "Species") (lit "Rosa") (lit "canina") [] []
                    [] [] [] [] []))), []).
Proof. by vm_compute. Qed.

Example parse_blank :
  parse_scientific_name [] false [] = (Ok None, [])
  ∧ parse_scientific_name (lit "   ") false [] = (Ok None, []).
Proof. by vm_compute. Qed.

(** A lone sign in first position is kept as the genus and then counts as
    a species hybrid. *)
Example parse_lone_sign_first :
  parse_scientific_name (times :: lit " Rosa canina") false []
  = (Ok (Some (assemble
                 (Locals (lit "Species") [times] (lit "canina") [] [times]
                    [] [] [] [] []))), []).
Proof. by vm_compute. Qed.

(** A scan matches the first occurrence of the first abbreviation present:
    here [var.] is also the last token, but the match is at position 1, an
    epithet follows it, and nothing is printed. *)
Example parse_abbreviation_twice :
  parse_scientific_name (lit "Rosa var. alba var.") false []
  = (Ok (Some (assemble
                 (Locals (lit "Variety") (lit "Rosa") (lit "var.") [] []
                    (lit "alba") (lit "alba") [] [] []))), [])
  ∧ matches_last variety_abbreviations
      (working_tokens (lit "Rosa var. alba var.")) = false.
Proof. by vm_compute. Qed.

(** The wrapper on a row with a name: the parsed fields are added and the
    name column is kept. *)
Example generate_columns_species :
  ∃ row,
    generate_scientific_columns
      {[ lit "name" := Text (lit "Rosa canina") ]}
      (lit "name") false [] = (Ok row, [])
    ∧ row !! lit "name" = Some (Text (lit "Rosa canina"))
    ∧ row !! lit "taxon_rank" = Some (Text (lit "Species"))
    ∧ row !! lit "genus" = Some (Text (lit "Rosa"))
    ∧ row !! lit "species" = Some (Text (lit "canina"))
    ∧ row !! lit "form" = Some (Text []).
Proof. eexists. split; [reflexivity|]. by vm_compute. Qed.
(** * Properties of [parse_scientific_name] *)

Lemma diagnostics_lines (name : str) (flag : bool) (line : str) :
  line ∈ diagnostics name flag → ∃ k, line = diagnostic_of k name.
Proof.
  unfold diagnostics. rewrite !elem_of_app. intros [Hin|[Hin|Hin]].
  - exists VarietyScan.
    destruct (scan_spec variety_abbreviations (working_tokens name));
      try (by inversion Hin).
    by apply list_elem_of_singleton in Hin.
  - exists SubspeciesScan.
    destruct (scan_spec subspecies_abbreviations (working_tokens name));
      try (by inversion Hin).
    by apply list_elem_of_singleton in Hin.
  - exists FormScan.
    destruct (form_scan_spec flag (working_tokens name));
      try (by inversion Hin).
    by apply list_elem_of_singleton in Hin.
Qed.

Lemma diagnostics_nil (name : str) (flag : bool) :
  tokenize name = [] → diagnostics name flag = [].
Proof.
  intros Htok. unfold diagnostics. rewrite (working_tokens_nil _ Htok).
  by destruct flag.
Qed.

(** The parser can print all it has to when the three possible lines can
    be written. *)
Lemma printable_diagnostics_of `{Stdout} (name : str) (flag : bool) :
  (∀ k, printable (diagnostic_of k name) = true) →
  printable_diagnostics name flag = true.
Proof.
  intros Hall. unfold printable_diagnostics. apply forallb_forall.
  intros line Hin. apply list_elem_of_In in Hin.
  destruct (diagnostics_lines name flag line Hin) as [k ->].
  apply Hall.
Qed.

(** C2, as the code has it. The parser always terminates. When every line
    it has to print for the name can be written to standard output, in
    particular when the three possible lines can, it returns [None] or a
    dictionary whose keys are exactly the nine field names. Otherwise the
    [print] of an [except] handler raises [UnicodeEncodeError], which the
    handler does not catch; no subscript, [pop] or [index] of the parser
    raises anything that escapes. *)
Theorem parse_raises_only_encoding `{Stdout} (name : str) (flag : bool)
    out :
  (printable_diagnostics name flag = true →
   ∃ out',
     parse_scientific_name name flag out = (Ok None, out')
     ∨ ∃ d, parse_scientific_name name flag out = (Ok (Some d), out')
            ∧ d.*1 = field_names)
  ∧ (printable_diagnostics name flag = false →
     ∃ out',
       parse_scientific_name name flag out
       = (Raise UnicodeEncodeError, out'))
  ∧ ((∀ k, printable (diagnostic_of k name) = true) →
     printable_diagnostics name flag = true).
Proof.
  split; [|split].
  - intros Hp. destruct (tokenize name) as [|t ts] eqn:Htok.
    + exists out. left. by apply parse_None.
    + exists (out ++ diagnostics name flag). right.
      exists (assemble (final_locals name flag)). split; [|done].
      apply parse_Some; [by rewrite Htok|done].
  - intros Hp. apply parse_raise; [|done].
    intros Htok. unfold printable_diagnostics in Hp.
    by rewrite (diagnostics_nil _ _ Htok) in Hp.
  - apply printable_diagnostics_of.
Qed.

Lemma parse_raises_only_encoding_witness :
  printable_diagnostics (lit "Rosa canina var.") false = true
  ∧ ∃ out',
      parse_scientific_name (lit "Rosa canina var.") false []
      = (Ok None, out')
      ∨ ∃ d, parse_scientific_name (lit "Rosa canina var.") false []
             = (Ok (Some d), out')
             ∧ d.*1 = field_names.
Proof.
  split; [by vm_compute|].
  apply (parse_raises_only_encoding (lit "Rosa canina var.") false []).
  by vm_compute.
Defined.

(** C2, as stated, fails on [Rosa \ud800 var.] with a UTF-8 standard
    output: the variety scan runs off the end, its handler prints the
    name, and the lone surrogate cannot be encoded. *)
Lemma parse_raises_on_unprintable_name :
  @parse_scientific_name utf8_strict unprintable_variety false []
  = (Raise UnicodeEncodeError, []).
Proof. by vm_compute. Qed.

(** C3, as the code has it. The parser returns [None] exactly when the
    input splits into no token, that is when it is empty or blank. On
    every other input it does not return [None], every dictionary it
    returns has a genus that is not empty, and it does return a dictionary
    when every line it has to print can be written. *)
Theorem parse_none_iff_no_tokens `{Stdout} (name : str) (flag : bool) out :
  ((parse_scientific_name name flag out).1 = Ok None ↔ split name = [])
  ∧ (split name = [] ↔ forallb isspace name = true)
  ∧ (split name ≠ [] →
     (∀ d out',
        parse_scientific_name name flag out = (Ok (Some d), out') →
        ∃ g, getfield d (lit "genus") = Some g ∧ g ≠ [])
     ∧ (printable_diagnostics name flag = true →
        ∃ d g, (parse_scientific_name name flag out).1 = Ok (Some d)
               ∧ getfield d (lit "genus") = Some g ∧ g ≠ [])).
Proof.
  assert (Hgenus : tokenize name ≠ [] →
                   Genus (final_locals name flag) ≠ []).
  { intros Hne.
    destruct (final_locals_fields name flag) as (-> & _).
    destruct (tokenize name) as [|t ts] eqn:Htok; [done|].
    destruct (tokenize_first _ _ _ Htok) as (c & t' & ->).
    destruct (classified_fields name c t' ts Htok) as (_ & _ & -> & _).
    destruct (c =? times)%N; simpl; [|done].
    by destruct t'. }
  split; [|split].
  - rewrite <- tokenize_nil_split. split.
    + intros Hnone. destruct (tokenize name) eqn:Htok; [done|].
      assert (Hne : tokenize name ≠ []) by (by rewrite Htok).
      destruct (printable_diagnostics name flag) eqn:Hp.
      * rewrite parse_Some in Hnone by done. done.
      * destruct (parse_raise name flag out Hne Hp) as [out' Hr].
        by rewrite Hr in Hnone.
    + intros Hnil. by rewrite parse_None.
  - apply split_nil.
  - intros Hne. rewrite <- tokenize_nil_split in Hne. split.
    + intros d out' Hrun. apply parse_returns in Hrun as (_ & -> & _).
      exists (Genus (final_locals name flag)). split; [done|].
      by apply Hgenus.
    + intros Hp. rewrite parse_Some by done.
      exists (assemble (final_locals name flag)),
        (Genus (final_locals name flag)).
      repeat split. by apply Hgenus.
Qed.

Lemma parse_none_iff_no_tokens_witness :
  split (lit "Rosa canina") ≠ []
  ∧ printable_diagnostics (lit "Rosa canina") false = true
  ∧ ∃ d g, (parse_scientific_name (lit "Rosa canina") false []).1
           = Ok (Some d)
           ∧ getfield d (lit "genus") = Some g ∧ g ≠ [].
Proof.
  split; [by vm_compute|]. split; [by vm_compute|].
  apply (parse_none_iff_no_tokens (lit "Rosa canina") false []);
    by vm_compute.
Defined.

(** C3, as stated, fails on [Rosa \ud800 subsp.] with a UTF-8 standard
    output: the input has three tokens and no dictionary is returned. *)
Lemma no_record_for_unprintable_name :
  split unprintable_subspecies
  = [lit "Rosa"; [surrogate]; lit "subsp."]
  ∧ @parse_scientific_name utf8_strict unprintable_subspecies false []
    = (Raise UnicodeEncodeError, []).
Proof. by vm_compute. Qed.

(** C8. [genus_hybrid] is set exactly when the first token of the
    normalised input begins with the hybrid sign and is longer than one
    character; the genus is then that token without its first character.
    Otherwise, and in particular for a first token that is the sign alone,
    the genus is the first token unchanged. *)
Theorem genus_hybrid_iff_glued_sign `{Stdout} (name : str) (flag : bool)
    out (d : dict) out' (t : str) (ts : list str) :
  parse_scientific_name name flag out = (Ok (Some d), out') →
  tokenize name = t :: ts →
  ∃ gh g,
    getfield d (lit "genus_hybrid") = Some gh
    ∧ getfield d (lit "genus") = Some g
    ∧ (gh ≠ [] ↔ head t = Some times ∧ 1 < length t)
    ∧ (gh ≠ [] → gh = [times] ∧ g = drop 1 t)
    ∧ (gh = [] → g = t)
    ∧ (t = [times] → gh = [] ∧ g = [times]).
Proof.
  intros Hrun Htok. apply parse_returns in Hrun as (_ & -> & _).
  exists (Genus_Hybrid (final_locals name flag)),
    (Genus (final_locals name flag)).
  split; [done|]. split; [done|].
  destruct (final_locals_fields name flag) as (-> & _ & -> & _).
  destruct (tokenize_first _ _ _ Htok) as (c & t' & ->).
  destruct (classified_fields name c t' ts Htok)
    as (_ & _ & -> & -> & _).
  destruct (N.eqb_spec c times) as [->|Hne]; simpl.
  - destruct t' as [|c' t'']; simpl.
    + repeat split; try done. intros [_ Hlt]. lia.
    + repeat split; try done. lia.
  - repeat split; try done; intuition congruence.
Qed.

Lemma genus_hybrid_iff_glued_sign_witness :
  parse_scientific_name (times :: lit "Rosa damascena") false []
  = (Ok (Some [(lit "taxon_rank", lit "Species");
               (lit "genus", lit "Rosa");
               (lit "species", lit "damascena");
               (lit "genus_hybrid", [times]);
               (lit "species_hybrid", []);
               (lit "infraspecies", []);
               (lit "variety", []);
               (lit "subspecies", []);
               (lit "form", [])]), [])
  ∧ tokenize (times :: lit "Rosa damascena")
    = [times :: lit "Rosa"; lit "damascena"]
  ∧ ∃ gh g,
      getfield [(lit "taxon_rank", lit "Species");
                (lit "genus", lit "Rosa");
                (lit "species", lit "damascena");
                (lit "genus_hybrid", [times]);
                (lit "species_hybrid", []);
                (lit "infraspecies", []);
                (lit "variety", []);
                (lit "subspecies", []);
                (lit "form", [])] (lit "genus_hybrid") = Some gh
      ∧ getfield [(lit "taxon_rank", lit "Species");
                  (lit "genus", lit "Rosa");
                  (lit "species", lit "damascena");
                  (lit "genus_hybrid", [times]);
                  (lit "species_hybrid", []);
                  (lit "infraspecies", []);
                  (lit "variety", []);
                  (lit "subspecies", []);
                  (lit "form", [])] (lit "genus") = Some g
      ∧ (gh ≠ [] ↔ head (times :: lit "Rosa") = Some times
                   ∧ 1 < length (times :: lit "Rosa"))
      ∧ (gh ≠ [] → gh = [times] ∧ g = drop 1 (times :: lit "Rosa"))
      ∧ (gh = [] → g = times :: lit "Rosa")
      ∧ (times :: lit "Rosa" = [times] → gh = [] ∧ g = [times]).
Proof.
  split; [by vm_compute|]. split; [by vm_compute|].
  eapply (genus_hybrid_iff_glued_sign (times :: lit "Rosa damascena")
            false [] _ [] (times :: lit "Rosa") [lit "damascena"]);
    by vm_compute.
Defined.

(** C7. In every returned dictionary a non-empty species comes with a rank
    among Species, Variety, Subspecies and Form; a dictionary of rank Genus
    has an empty species. *)
Theorem species_needs_rank `{Stdout} (name : str) (flag : bool) out
    (d : dict) out' (sp rank : str) :
  parse_scientific_name name flag out = (Ok (Some d), out') →
  getfield d (lit "species") = Some sp →
  getfield d (lit "taxon_rank") = Some rank →
  (sp ≠ [] →
   rank ∈ [lit "Species"; lit "Variety"; lit "Subspecies"; lit "Form"])
  ∧ (rank = lit "Genus" → sp = []).
Proof.
  intros Hrun Hsp Hrank.
  apply parse_returns in Hrun as (Htok & -> & _).
  destruct (assemble_fields (final_locals name flag))
    as (Hr & _ & Hs & _).
  rewrite Hs in Hsp. rewrite Hr in Hrank.
  injection Hsp as <-. injection Hrank as <-.
  assert (Hfirst : Species (final_locals name flag) ≠ [] →
    Taxon_Rank (final_locals name flag)
    ∈ [lit "Species"; lit "Variety"; lit "Subspecies"; lit "Form"]).
  { destruct (final_locals_fields name flag)
      as (_ & -> & _ & _ & _ & _ & _ & _ & ->).
    destruct (tokenize name) as [|t ts] eqn:Hts; [done|].
    destruct (tokenize_first _ _ _ Hts) as (c & t' & ->).
    destruct (classified_fields name c t' ts Hts)
      as (_ & _ & _ & _ & _ & -> & ->).
    intros Hne.
    destruct (found (form_scan_spec flag (working_tokens name)));
      [set_solver|].
    destruct (found (scan_spec subspecies_abbreviations
                       (working_tokens name))); [set_solver|].
    destruct (found (scan_spec variety_abbreviations
                       (working_tokens name))); [set_solver|].
    destruct (working_tokens name) as [|x [|y r]]; [done|done|].
    set_solver. }
  split; [done|]. intros Hgenus.
  destruct (Species (final_locals name flag)) as [|c s] eqn:Hsp; [done|].
  assert (Hin : Taxon_Rank (final_locals name flag)
    ∈ [lit "Species"; lit "Variety"; lit "Subspecies"; lit "Form"])
    by (by apply Hfirst).
  rewrite Hgenus in Hin.
  repeat (apply elem_of_cons in Hin as [Hin|Hin];
          [vm_compute in Hin; discriminate Hin|]).
  inversion Hin.
Qed.

Lemma species_needs_rank_witness :
  parse_scientific_name (lit "Rosa canina var. dumetorum") false []
  = (Ok (Some [(lit "taxon_rank", lit "Variety");
               (lit "genus", lit "Rosa");
               (lit "species", lit "canina");
               (lit "genus_hybrid", []);
               (lit "species_hybrid", []);
               (lit "infraspecies", lit "dumetorum");
               (lit "variety", lit "dumetorum");
               (lit "subspecies", []);
               (lit "form", [])]), [])
  ∧ ((lit "canina" ≠ [] →
      lit "Variety"
      ∈ [lit "Species"; lit "Variety"; lit "Subspecies"; lit "Form"])
     ∧ (lit "Variety" = lit "Genus" → lit "canina" = [])).
Proof.
  split; [by vm_compute|].
  eapply (species_needs_rank (lit "Rosa canina var. dumetorum") false []
            _ [] (lit "canina") (lit "Variety")).
  - by vm_compute.
  - by vm_compute.
  - by vm_compute.
Defined.

(** C4, as the code has it. [species_hybrid] is set exactly when some token
    of the sequence at line 94 holds the hybrid sign, the genus token
    included; a sign in any other token sets it. *)
Theorem species_hybrid_iff_any_token `{Stdout} (name : str) (flag : bool)
    out (d : dict) out' (sh : str) :
  parse_scientific_name name flag out = (Ok (Some d), out') →
  getfield d (lit "species_hybrid") = Some sh →
  (sh ≠ [] ↔ has_times (detection_tokens name) = true)
  ∧ (sh ≠ [] → sh = [times])
  ∧ (has_times (tail (detection_tokens name)) = true → sh = [times]).
Proof.
  intros Hrun Hsh. apply parse_returns in Hrun as (Htok & -> & _).
  destruct (assemble_fields (final_locals name flag))
    as (_ & _ & _ & _ & Hf & _).
  rewrite Hf in Hsh. injection Hsh as <-.
  destruct (final_locals_fields name flag) as (_ & _ & _ & -> & _).
  destruct (tokenize name) as [|t ts] eqn:Hts; [done|].
  destruct (tokenize_first _ _ _ Hts) as (c & t' & ->).
  destruct (classified_fields name c t' ts Hts)
    as (_ & _ & _ & _ & -> & _).
  unfold has_times.
  destruct (detection_tokens name) as [|g rest]; simpl; [done|].
  destruct (contains g [times]); simpl; [done|].
  by destruct (existsb _ rest).
Qed.

Lemma species_hybrid_iff_any_token_witness :
  parse_scientific_name (lit "Rosa x damascena") false []
  = (Ok (Some [(lit "taxon_rank", lit "Species");
               (lit "genus", lit "Rosa");
               (lit "species", lit "damascena");
               (lit "genus_hybrid", []);
               (lit "species_hybrid", [times]);
               (lit "infraspecies", []);
               (lit "variety", []);
               (lit "subspecies", []);
               (lit "form", [])]), [])
  ∧ ([times] ≠ [] ↔ has_times (detection_tokens (lit "Rosa x damascena"))
                     = true)
  ∧ ([times] ≠ [] → [times] = [times])
  ∧ (has_times (tail (detection_tokens (lit "Rosa x damascena"))) = true
     → [times] = [times]).
Proof.
  split; [by vm_compute|].
  eapply (species_hybrid_iff_any_token (lit "Rosa x damascena") false []
            _ [] [times]).
  - by vm_compute.
  - by vm_compute.
Defined.

(** C4, as stated, fails on [Ro×sa canina]: the sign sits in the genus
    token only, and [species_hybrid] is set. *)
Lemma species_hybrid_set_by_genus_token :
  ∃ d, parse_scientific_name sign_inside_genus false [] = (Ok (Some d), [])
       ∧ getfield d (lit "species_hybrid") = Some [times]
       ∧ detection_tokens sign_inside_genus
         = [lit "Ro" ++ times :: lit "sa"; lit "canina"]
       ∧ has_times (tail (detection_tokens sign_inside_genus)) = false.
Proof. eexists. by vm_compute. Qed.



Lemma missing_line_due (k : rank_scan) (name : str) (flag : bool) :
  enabled k flag = true →
  scan_spec (abbreviations_of k) (working_tokens name) = MissingEpithet →
  diagnostic_of k name ∈ diagnostics name flag.
Proof.
  intros Hon Hlast. unfold diagnostics. rewrite !elem_of_app.
  destruct k; simpl in *.
  - left. rewrite Hlast. by left.
  - right. left. rewrite Hlast. by left.
  - right. right. apply negb_true_iff in Hon as ->.
    unfold form_scan_spec. rewrite Hlast. by left.
Qed.

(** C6, as the code has it. When the abbreviation a scan matches is the
    last working token and every line the parser has to print for the name
    can be written to standard output, the scan returns normally with the
    locals unchanged, so neither the rank nor the infraspecific epithet
    moves; it prints its line; the parser still returns a dictionary, in
    which the field of that scan is empty and every scan has recorded what
    it found. *)
Theorem missing_epithet_is_not_fatal `{Stdout} (k : rank_scan) (name : str)
    (flag : bool) out :
  enabled k flag = true →
  matches_last (abbreviations_of k) (working_tokens name) = true →
  printable_diagnostics name flag = true →
  (∀ l out0, scientific_name_tokens l = working_tokens name →
     run_scan k name flag l out0 = (Ok l, out0 ++ [diagnostic_of k name]))
  ∧ ∃ d out',
      parse_scientific_name name flag out = (Ok (Some d), out')
      ∧ getfield d (field_of k) = Some []
      ∧ diagnostic_of k name ∈ out'
      ∧ ∀ k', getfield d (field_of k')
              = Some (epithet_of
                        (scan_spec_of k' flag (working_tokens name))).
Proof.
  intros Hon Hlast Hp. apply matches_last_missing in Hlast.
  assert (Htok : tokenize name ≠ []).
  { intros Hnil. rewrite (working_tokens_nil _ Hnil) in Hlast.
    unfold scan_spec in Hlast.
    by destruct (first_present (abbreviations_of k) []). }
  pose proof (final_field_of name flag) as Hall.
  pose proof (missing_line_due k name flag Hon Hlast) as Hdue.
  assert (Hline : printable (diagnostic_of k name) = true).
  { unfold printable_diagnostics in Hp. rewrite forallb_forall in Hp.
    apply Hp. by apply list_elem_of_In. }
  split.
  - intros l out0 Hl.
    destruct k; simpl in *.
    + rewrite variety_scan_run, Hl, Hlast.
      unfold scan_effect, mbind, M_bind, write_line. by rewrite Hline.
    + rewrite subspecies_scan_run, Hl, Hlast.
      unfold scan_effect, mbind, M_bind, write_line. by rewrite Hline.
    + apply negb_true_iff in Hon as ->.
      rewrite form_scan_run, Hl. unfold form_scan_spec. rewrite Hlast.
      unfold scan_effect, mbind, M_bind, write_line. by rewrite Hline.
  - exists (assemble (final_locals name flag)),
      (out ++ diagnostics name flag).
    split; [by apply parse_Some|]. split; [|split; [|done]].
    + rewrite Hall. unfold scan_spec_of. by rewrite Hon, Hlast.
    + apply elem_of_app. by right.
Qed.

Lemma missing_epithet_is_not_fatal_witness :
  enabled VarietyScan false = true
  ∧ matches_last (abbreviations_of VarietyScan)
      (working_tokens (lit "Rosa canina var.")) = true
  ∧ printable_diagnostics (lit "Rosa canina var.") false = true
  ∧ ∃ d out',
      parse_scientific_name (lit "Rosa canina var.") false []
      = (Ok (Some d), out')
      ∧ getfield d (field_of VarietyScan) = Some []
      ∧ diagnostic_of VarietyScan (lit "Rosa canina var.") ∈ out'
      ∧ ∀ k', getfield d (field_of k')
              = Some (epithet_of
                        (scan_spec_of k' false
                           (working_tokens (lit "Rosa canina var.")))).
Proof.
  split; [reflexivity|]. split; [by vm_compute|]. split; [by vm_compute|].
  apply (missing_epithet_is_not_fatal VarietyScan (lit "Rosa canina var.")
           false []); by vm_compute.
Defined.

(** C6, as stated, fails on [Rosa \ud800 f.] with a UTF-8 standard
    output: the form scan matches [f.] as the last working token, and the
    [print] of its handler raises instead of returning. *)
Lemma missing_epithet_fatal_when_unprintable :
  enabled FormScan false = true
  ∧ matches_last (abbreviations_of FormScan)
      (working_tokens unprintable_form) = true
  ∧ @parse_scientific_name utf8_strict unprintable_form false []
    = (Raise UnicodeEncodeError, [])
  ∧ @run_scan utf8_strict FormScan unprintable_form false
      (classified unprintable_form) []
    = (Raise UnicodeEncodeError, []).
Proof. by vm_compute. Qed.

Lemma is_set_final (name : str) (flag : bool) (k : rank_scan) :
  is_set (assemble (final_locals name flag)) (field_of k)
  = found (scan_spec_of k flag (working_tokens name)).
Proof.
  unfold is_set. rewrite final_field_of.
  pose proof (epithet_nonempty name
                (scan_spec_of k flag (working_tokens name))) as Hne.
  destruct (scan_spec_of k flag (working_tokens name)) as [| |e] eqn:Hr;
    simpl in *; [done|done|].
  destruct e; [|done]. exfalso. apply Hne; [|done|done].
  intros e [= <-]. unfold scan_spec_of in Hr.
  destruct (enabled k flag); [|done]. by eapply scan_spec_elem.
Qed.

(** C1, as the code has it. Each of [variety], [subspecies] and [form] is
    non-empty exactly when its own scan found an epithet, so the number of
    non-empty fields is the number of scans that found one; it is at most
    one whenever at most one scan found an epithet. *)
Theorem infraspecific_fields_follow_scans `{Stdout} (name : str)
    (flag : bool) out (d : dict) out' :
  parse_scientific_name name flag out = (Ok (Some d), out') →
  let toks := working_tokens name in
  let v := found (scan_spec_of VarietyScan flag toks) in
  let s := found (scan_spec_of SubspeciesScan flag toks) in
  let f := found (scan_spec_of FormScan flag toks) in
  is_set d (lit "variety") = v
  ∧ is_set d (lit "subspecies") = s
  ∧ is_set d (lit "form") = f
  ∧ infraspecific_fields_set d = Nat.b2n v + Nat.b2n s + Nat.b2n f
  ∧ (Nat.b2n v + Nat.b2n s + Nat.b2n f ≤ 1 →
     infraspecific_fields_set d ≤ 1).
Proof.
  intros Hrun toks v s f.
  apply parse_returns in Hrun as (_ & -> & _).
  pose proof (is_set_final name flag VarietyScan) as Hv.
  pose proof (is_set_final name flag SubspeciesScan) as Hs.
  pose proof (is_set_final name flag FormScan) as Hf.
  simpl field_of in *. fold toks v s f in Hv, Hs, Hf.
  unfold infraspecific_fields_set. rewrite Hv, Hs, Hf. done.
Qed.

Lemma infraspecific_fields_follow_scans_witness :
  parse_scientific_name (lit "Rosa canina f. alba") false []
  = (Ok (Some [(lit "taxon_rank", lit "Form");
               (lit "genus", lit "Rosa");
               (lit "species", lit "canina");
               (lit "genus_hybrid", []);
               (lit "species_hybrid", []);
               (lit "infraspecies", lit "alba");
               (lit "variety", []);
               (lit "subspecies", []);
               (lit "form", lit "alba")]), [])
  ∧ infraspecific_fields_set
      [(lit "taxon_rank", lit "Form");
       (lit "genus", lit "Rosa");
       (lit "species", lit "canina");
       (lit "genus_hybrid", []);
       (lit "species_hybrid", []);
       (lit "infraspecies", lit "alba");
       (lit "variety", []);
       (lit "subspecies", []);
       (lit "form", lit "alba")] ≤ 1.
Proof.
  split; [by vm_compute|].
  destruct (infraspecific_fields_follow_scans (lit "Rosa canina f. alba")
              false [] _ [] ltac:(by vm_compute))
    as (_ & _ & _ & _ & H).
  apply H. vm_compute. lia.
Defined.

(** C1, as stated, fails on [Rosa canina var. alba subsp. rubra]: both
    [variety] and [subspecies] are set. *)
Lemma variety_and_subspecies_both_set :
  ∃ d, parse_scientific_name (lit "Rosa canina var. alba subsp. rubra")
         false [] = (Ok (Some d), [])
       ∧ getfield d (lit "variety") = Some (lit "alba")
       ∧ getfield d (lit "subspecies") = Some (lit "rubra")
       ∧ infraspecific_fields_set d = 2.
Proof. eexists. by vm_compute. Qed.

(** * [generate_scientific_columns] on a blank name *)

(** C10. When the name column holds an empty or blank string, the parser
    returns [None], iterating over it raises [TypeError], and the wrapper
    raises instead of returning a row. *)
Theorem blank_name_raises `{Stdout} (row : gmap str cell) (col name : str)
    (flag : bool) out :
  row !! col = Some (Text name) →
  forallb isspace name = true →
  parse_scientific_name name flag out = (Ok None, out)
  ∧ generate_scientific_columns row col flag out = (Raise TypeError, out).
Proof.
  intros Hcol Hblank. apply tokenize_nil in Hblank.
  split; [by apply parse_None|].
  unfold generate_scientific_columns, row_getitem, mbind, M_bind.
  rewrite Hcol. simpl. by rewrite parse_None.
Qed.

Lemma blank_name_raises_witness :
  ({[ lit "scientific_name" := Text (lit "   ") ]} : gmap str cell)
    !! lit "scientific_name" = Some (Text (lit "   "))
  ∧ forallb isspace (lit "   ") = true
  ∧ parse_scientific_name (lit "   ") false [] = (Ok None, [])
  ∧ generate_scientific_columns
      {[ lit "scientific_name" := Text (lit "   ") ]}
      (lit "scientific_name") false [] = (Raise TypeError, []).
Proof.
  split; [by vm_compute|]. split; [reflexivity|].
  apply (blank_name_raises {[ lit "scientific_name" := Text (lit "   ") ]}
           (lit "scientific_name") (lit "   ") false []).
  - by vm_compute.
  - reflexivity.
Defined.

(** * Re-parsing the recombined fields *)

Lemma replace_absent (s old new : str) :
  contains s old = false → replace s old new = s.
Proof.
  unfold replace. induction s as [|c s IH]; [done|].
  intros H.
  change (contains (c :: s) old)
    with (startswith (c :: s) old || contains s old) in H.
  apply orb_false_iff in H as [Hsw Hrest].
  change (replace_from old new 0 (c :: s))
    with (if startswith (c :: s) old
          then new ++ replace_from old new (length old - 1) s
          else c :: replace_from old new 0 s).
  rewrite Hsw. f_equal. by apply IH.
Qed.

Lemma contains_cons (c : N) (r pat : str) :
  contains (c :: r) pat = startswith (c :: r) pat || contains r pat.
Proof. done. Qed.

Lemma startswith_cons (c p : N) (r pat : str) :
  startswith (c :: r) (p :: pat) = (p =? c)%N && startswith r pat.
Proof. done. Qed.

Lemma eqb_space_nonspace (p c : N) :
  isspace p = true → isspace c = false → (p =? c)%N = false.
Proof.
  intros Hp Hc. apply N.eqb_neq. intros ->. congruence.
Qed.

Lemma contains_word_app (w rest pat : str) (p : N) :
  Forall (λ c, isspace c = false) w → isspace p = true →
  contains (w ++ rest) (p :: pat) = contains rest (p :: pat).
Proof.
  intros Hw Hp. induction w as [|c w IH]; [done|].
  inversion Hw as [|? ? Hc Hw']; subst.
  change (contains ((c :: w) ++ rest) (p :: pat))
    with ((p =? c)%N && startswith (w ++ rest) pat
          || contains (w ++ rest) (p :: pat)).
  rewrite (eqb_space_nonspace p c) by done. simpl. by apply IH.
Qed.

Lemma startswith_word (w rest : str) (m p : N) :
  word w → isspace p = true →
  startswith (w ++ rest) [m; p] = true → w = [m] ∧ rest ≠ [].
Proof.
  intros [Hne Hw] Hp. destruct w as [|c w]; [done|].
  inversion Hw as [|? ? Hc Hw']; subst. simpl.
  intros H. apply andb_true_iff in H as [Hm H].
  apply N.eqb_eq in Hm as ->.
  destruct w as [|c' w]; simpl in H.
  - split; [done|]. by destruct rest.
  - inversion Hw' as [|? ? Hc' _]; subst.
    by rewrite (eqb_space_nonspace p c') in H.
Qed.

Lemma contains_word (w pat : str) (p : N) :
  Forall (λ c, isspace c = false) w → isspace p = true →
  contains w (p :: pat) = false.
Proof.
  intros Hw Hp. rewrite <- (app_nil_r w).
  by rewrite (contains_word_app w [] pat p).
Qed.

(** The recombined string holds no [" m "] unless the species is [m] and
    an epithet follows. *)
Lemma recombine_no_pattern (g s i : str) (m : N) :
  word g → word s → (i = [] ∨ word i) → (i ≠ [] → s ≠ [m]) →
  contains (recombine g s i) [space; m; space] = false.
Proof.
  intros [_ Hg] Hs Hi Hsm. unfold recombine.
  rewrite contains_word_app by done.
  rewrite contains_cons, startswith_cons.
  apply orb_false_iff. split.
  - apply andb_false_iff. right.
    destruct (startswith _ [m; space]) eqn:Hsw; [|done].
    apply startswith_word in Hsw as [-> Hne]; [|done..].
    destruct i; [done|]. by destruct Hsm.
  - destruct Hs as [_ Hs]. rewrite contains_word_app by done.
    destruct Hi as [->|[Hine Hi]]; [done|].
    destruct i as [|c i]; [done|].
    rewrite contains_cons, startswith_cons.
    apply orb_false_iff. split; [|by apply contains_word].
    apply andb_false_iff. right.
    destruct (startswith (c :: i) [m; space]) eqn:Hsw; [|done].
    rewrite <- (app_nil_r (c :: i)) in Hsw.
    by apply startswith_word in Hsw as [_ Hne].
Qed.

Lemma recombine_clean (g s i : str) :
  word g → word s → (i = [] ∨ word i) →
  (i ≠ [] → s ≠ lit "x" ∧ s ≠ lit "X") →
  clean (recombine g s i) = recombine g s i.
Proof.
  intros Hg Hs Hi Hx. unfold clean.
  rewrite (replace_absent _ (lit " x ")).
  - apply replace_absent.
    apply (recombine_no_pattern g s i 88%N); try done.
    intros Hne. by apply Hx.
  - apply (recombine_no_pattern g s i 120%N); try done.
    intros Hne. by apply Hx.
Qed.

Lemma recombine_tokens (g s i : str) :
  word g → word s → (i = [] ∨ word i) →
  split (recombine g s i)
  = g :: s :: match i with [] => [] | _ => [i] end.
Proof.
  intros [Hgne Hg] [Hsne Hs] Hi. unfold recombine.
  rewrite split_word_cons by done. f_equal.
  destruct Hi as [->|[Hine Hi]].
  - rewrite app_nil_r. by apply split_word.
  - destruct i as [|c i]; [done|].
    rewrite split_word_cons by done. f_equal. by apply split_word.
Qed.

Lemma strip_without_times (t : str) :
  times ∉ t → replace t [times] [] = t.
Proof.
  intros H. apply replace_absent.
  destruct (contains t [times]) eqn:Hc; [|done].
  by apply contains_char in Hc.
Qed.

(** The infraspecific epithet is empty or one of the working tokens. *)
Lemma infraspecies_token (name : str) (flag : bool) :
  Infraspecies (final_locals name flag) = []
  ∨ Infraspecies (final_locals name flag) ∈ working_tokens name.
Proof.
  destruct (final_locals_fields name flag)
    as (_ & _ & _ & _ & _ & _ & _ & -> & _).
  destruct (form_scan_spec flag (working_tokens name)) eqn:Hf; simpl;
    [| |right; by eapply form_scan_spec_elem].
  all: destruct (scan_spec subspecies_abbreviations (working_tokens name))
         eqn:Hs; simpl; [| |right; by eapply scan_spec_elem].
  all: destruct (scan_spec variety_abbreviations (working_tokens name))
         eqn:Hv; simpl; [by left|by left|right; by eapply scan_spec_elem].
Qed.

Lemma genus_first_token (name : str) :
  tokenize name ≠ [] →
  head (detection_tokens name) = Some (Genus (classified name)).
Proof.
  intros Hne. destruct (tokenize name) as [|t ts] eqn:Htok; [done|].
  destruct (tokenize_first _ _ _ Htok) as (c & t' & ->).
  destruct (classified_fields name c t' ts Htok) as (-> & _ & -> & _).
  destruct ts as [|a [|a' ts']]; try done.
  by destruct (inlist a abbreviation_ignore).
Qed.

Lemma genus_word (name : str) :
  tokenize name ≠ [] → word (Genus (classified name)).
Proof.
  intros Hne. apply genus_first_token in Hne.
  pose proof (detection_tokens_words name) as Hall.
  destruct (detection_tokens name) as [|g r]; [done|].
  injection Hne as <-. by apply Forall_cons in Hall as [Hg _].
Qed.

Lemma species_token (name : str) :
  Species (classified name) ≠ [] →
  tokenize name ≠ [] ∧ Species (classified name) ∈ working_tokens name.
Proof.
  intros Hne. destruct (tokenize name) as [|t ts] eqn:Htok.
  - exfalso. apply Hne. unfold classified. by rewrite Htok.
  - split; [done|].
    destruct (tokenize_first _ _ _ Htok) as (c & t' & ->).
    destruct (classified_fields name c t' ts Htok)
      as (_ & _ & _ & _ & _ & Hsp & _).
    rewrite Hsp in Hne |- *.
    destruct (working_tokens name) as [|x [|y r]]; [done|done|].
    set_solver.
Qed.

(** C9, as the code has it. When the returned genus does not begin with
    the hybrid sign, the species is not an ignorable abbreviation if no
    infraspecific epithet was found, and is not [x] or [X] if one was,
    parsing the recombined string gives back the same genus and species:
    every dictionary the second pass returns has them, and the second
    pass does return one when every line it has to print can be written
    to standard output. *)
Theorem reparse_keeps_genus_and_species `{Stdout} (name : str)
    (flag : bool) out (d : dict) out1 (g s i : str) (flag' : bool) out2 :
  parse_scientific_name name flag out = (Ok (Some d), out1) →
  getfield d (lit "genus") = Some g →
  getfield d (lit "species") = Some s →
  getfield d (lit "infraspecies") = Some i →
  s ≠ [] →
  head g ≠ Some times →
  (i = [] → inlist s abbreviation_ignore = false) →
  (i ≠ [] → s ≠ lit "x" ∧ s ≠ lit "X") →
  (∀ d' out3,
     parse_scientific_name (recombine g s i) flag' out2
     = (Ok (Some d'), out3) →
     getfield d' (lit "genus") = Some g
     ∧ getfield d' (lit "species") = Some s)
  ∧ (printable_diagnostics (recombine g s i) flag' = true →
     ∃ d' out3,
       parse_scientific_name (recombine g s i) flag' out2
       = (Ok (Some d'), out3)
       ∧ getfield d' (lit "genus") = Some g
       ∧ getfield d' (lit "species") = Some s).
Proof.
  intros Hrun Hg Hs Hi Hsne Hhead Habbr Hx.
  apply parse_returns in Hrun as (Htok & -> & _).
  destruct (assemble_fields (final_locals name flag))
    as (_ & Hg' & Hs' & _ & _ & Hi' & _).
  rewrite Hg' in Hg. rewrite Hs' in Hs. rewrite Hi' in Hi.
  injection Hg as <-. injection Hs as <-. injection Hi as <-.
  destruct (final_locals_fields name flag) as (HG & HS & _).
  rewrite HG in *. rewrite HS in *.
  pose proof (infraspecies_token name flag) as Hitok.
  set (g := Genus (classified name)) in *.
  set (s := Species (classified name)) in *.
  set (i := Infraspecies (final_locals name flag)) in *.
  pose proof (working_tokens_words name) as Hwords.
  pose proof (working_tokens_no_times name) as Hclean.
  rewrite Forall_forall in Hwords, Hclean.
  assert (Hgw : word g) by (by apply genus_word).
  destruct (species_token name Hsne) as [_ Hsin]. fold s in Hsin.
  assert (Hsw : word s) by (by apply Hwords).
  assert (Hst : times ∉ s) by (by apply Hclean).
  assert (Hiw : i = [] ∨ word i).
  { destruct Hitok as [?|Hin]; [by left|right; by apply Hwords]. }
  assert (Hit : times ∉ i).
  { destruct Hitok as [->|Hin]; [by apply not_elem_of_nil|].
    by apply Hclean. }
  assert (Htok2 : tokenize (recombine g s i)
                  = g :: s :: match i with [] => [] | _ => [i] end).
  { unfold tokenize. rewrite recombine_clean by done.
    by apply recombine_tokens. }
  destruct g as [|c t] eqn:Hgeq; [by destruct Hgw|].
  assert (Hc : (c =? times)%N = false).
  { apply N.eqb_neq. intros ->. by apply Hhead. }
  assert (Hsame :
    getfield (assemble (final_locals (recombine (c :: t) s i) flag'))
      (lit "genus") = Some (c :: t)
    ∧ getfield (assemble (final_locals (recombine (c :: t) s i) flag'))
        (lit "species") = Some s).
  { destruct (assemble_fields
                (final_locals (recombine (c :: t) s i) flag'))
      as (_ & -> & -> & _).
    destruct (final_locals_fields (recombine (c :: t) s i) flag')
      as (-> & -> & _).
    destruct (classified_fields _ c t _ Htok2)
      as (Hdet & Hwork & -> & _ & _ & -> & _).
    rewrite Hc in *. simpl in Hdet |- *. split; [done|]. f_equal.
    assert (Hdet' : ∃ r, detection_tokens (recombine (c :: t) s i)
                         = (c :: t) :: s :: r).
    { rewrite Hdet. destruct i as [|ci i']; [|by eexists].
      rewrite Habbr by done. by eexists. }
    destruct Hdet' as [r Hdet'].
    rewrite Hwork, Hdet'.
    destruct (existsb (λ item : str, contains item [times])
                ((c :: t) :: s :: r)); [|reflexivity].
    simpl map. rewrite (strip_without_times s) by done.
    rewrite replace_char_filter.
    rewrite (filter_cons_True (λ c0 : N, c0 ≠ times))
      by (by apply N.eqb_neq).
    rewrite filter_cons_True by done.
    by rewrite filter_cons_True by (by destruct Hsw). }
  split.
  - intros d' out3 Hrun2.
    by apply parse_returns in Hrun2 as (_ & -> & _).
  - intros Hp.
    exists (assemble (final_locals (recombine (c :: t) s i) flag')),
      (out2 ++ diagnostics (recombine (c :: t) s i) flag').
    split; [|done]. apply parse_Some; [by rewrite Htok2|done].
Qed.

Lemma reparse_keeps_genus_and_species_witness :
  parse_scientific_name (lit "Rosa canina var. dumetorum") false []
  = (Ok (Some [(lit "taxon_rank", lit "Variety");
               (lit "genus", lit "Rosa");
               (lit "species", lit "canina");
               (lit "genus_hybrid", []);
               (lit "species_hybrid", []);
               (lit "infraspecies", lit "dumetorum");
               (lit "variety", lit "dumetorum");
               (lit "subspecies", []);
               (lit "form", [])]), [])
  ∧ lit "canina" ≠ []
  ∧ head (lit "Rosa") ≠ Some times
  ∧ printable_diagnostics
      (recombine (lit "Rosa") (lit "canina") (lit "dumetorum")) false
    = true
  ∧ ∃ d' out3,
      parse_scientific_name
        (recombine (lit "Rosa") (lit "canina") (lit "dumetorum")) false []
      = (Ok (Some d'), out3)
      ∧ getfield d' (lit "genus") = Some (lit "Rosa")
      ∧ getfield d' (lit "species") = Some (lit "canina").
Proof.
  split; [by vm_compute|]. split; [by vm_compute|].
  split; [by vm_compute|]. split; [by vm_compute|].
  eapply (reparse_keeps_genus_and_species
            (lit "Rosa canina var. dumetorum") false [] _ []
            (lit "Rosa") (lit "canina") (lit "dumetorum") false []).
  - by vm_compute.
  - by vm_compute.
  - by vm_compute.
  - by vm_compute.
  - by vm_compute.
  - by vm_compute.
  - by vm_compute.
  - intros _. split; by vm_compute.
  - by vm_compute.
Defined.

(** C9, as stated, fails on [Rosa sp. nova]: the species is the token
    [sp.], and in the recombined string [Rosa sp.] that token is an
    ignorable abbreviation, so the second pass has no species. *)
Lemma reparse_loses_abbreviation_species :
  ∃ d d',
    parse_scientific_name (lit "Rosa sp. nova") false [] = (Ok (Some d), [])
    ∧ getfield d (lit "genus") = Some (lit "Rosa")
    ∧ getfield d (lit "species") = Some (lit "sp.")
    ∧ getfield d (lit "infraspecies") = Some []
    ∧ recombine (lit "Rosa") (lit "sp.") [] = lit "Rosa sp."
    ∧ parse_scientific_name (recombine (lit "Rosa") (lit "sp.") []) false []
      = (Ok (Some d'), [])
    ∧ getfield d' (lit "species") = Some []
    ∧ getfield d' (lit "species") ≠ getfield d (lit "species").
Proof. do 2 eexists. by vm_compute. Qed.

(** The condition on the genus is needed as well: after [××Rosa canina]
    the genus is [×Rosa], which the second pass reads as a genus hybrid. *)
Example reparse_strips_genus_sign :
  ∃ d d',
    parse_scientific_name doubled_sign false [] = (Ok (Some d), [])
    ∧ getfield d (lit "genus") = Some (times :: lit "Rosa")
    ∧ getfield d (lit "species") = Some (lit "canina")
    ∧ getfield d (lit "infraspecies") = Some []
    ∧ parse_scientific_name
        (recombine (times :: lit "Rosa") (lit "canina") []) false []
      = (Ok (Some d'), [])
    ∧ getfield d' (lit "genus") = Some (lit "Rosa").
Proof. do 2 eexists. by vm_compute. Qed.

(** The second pass can fail where the first did not: after
    [Ro\ud800sa canina var. var.] nothing is printed and the fields meet
    every condition above, but the recombined [Ro\ud800sa canina var.]
    runs off the end and its line cannot be written to a UTF-8 standard
    output. *)
Example reparse_can_raise :
  ∃ d,
    @parse_scientific_name utf8_strict unprintable_genus false []
    = (Ok (Some d), [])
    ∧ getfield d (lit "genus") = Some (lit "Ro" ++ surrogate :: lit "sa")
    ∧ getfield d (lit "species") = Some (lit "canina")
    ∧ getfield d (lit "infraspecies") = Some (lit "var.")
    ∧ @parse_scientific_name utf8_strict
        (recombine (lit "Ro" ++ surrogate :: lit "sa") (lit "canina")
           (lit "var.")) false []
      = (Raise UnicodeEncodeError, []).
Proof. eexists. by vm_compute. Qed.
(** * [generate_scientific_columns] on every row *)

Lemma getfield_keys (d : dict) (k : str) :
  k ∈ d.*1 ↔ is_Some (getfield d k).
Proof.
  induction d as [|[k' v] d IH]; simpl.
  - split; [intros H; inversion H|intros [? ?]; done].
  - rewrite elem_of_cons. destruct (decide (k' = k)) as [->|Hne].
    + split; [eauto|by left].
    + rewrite IH. split; [intros [?|?]; [congruence|done]|by right].
Qed.

(** The loop of lines 33-34 copies every key it is given. *)
Lemma copy_fields_run (keys : list str) (d : dict) (row : gmap str cell)
    out :
  (∀ k, k ∈ keys → is_Some (getfield d k)) →
  ∃ row', copy_fields keys (Some d) row out = (Ok row', out)
          ∧ ∀ k, row' !! k
                 = if decide (k ∈ keys) then Text <$> getfield d k
                   else row !! k.
Proof.
  revert row. induction keys as [|key keys IH]; intros row Hkeys.
  - exists row. split; [done|]. intros k.
    destruct (decide (k ∈ [])) as [H|_]; [inversion H|done].
  - destruct (Hkeys key) as [v Hv]; [by left|].
    destruct (IH (<[key := Text v]> row)) as (row' & Hrun & Hlook).
    { intros k Hk. apply Hkeys. by right. }
    exists row'. split.
    + simpl. unfold mbind, M_bind, dict_getitem. rewrite Hv. simpl.
      exact Hrun.
    + intros k. rewrite Hlook.
      destruct (decide (k ∈ keys)) as [Hin|Hnin].
      * rewrite decide_True by (by right). done.
      * destruct (decide (key = k)) as [->|Hne].
        -- rewrite decide_True by (by left).
           by rewrite lookup_insert_eq, Hv.
        -- rewrite lookup_insert_ne by done.
           rewrite decide_False; [done|].
           intros Hin. apply elem_of_cons in Hin as [?|?]; congruence.
Qed.

Lemma wrapper_run `{Stdout} (row : gmap str cell) (col name : str)
    (flag : bool) out :
  row !! col = Some (Text name) →
  tokenize name ≠ [] →
  printable_diagnostics name flag = true →
  ∃ row',
    generate_scientific_columns row col flag out
    = (Ok row', out ++ diagnostics name flag)
    ∧ ∀ k, row' !! k
           = if decide (k ∈ field_names)
             then Text <$> getfield (assemble (final_locals name flag)) k
             else row !! k.
Proof.
  intros Hcol Htok Hp.
  destruct (copy_fields_run field_names (assemble (final_locals name flag))
              row (out ++ diagnostics name flag)) as (row' & Hrun & Hlook).
  { intros k Hk. by apply getfield_keys. }
  exists row'. split; [|done].
  unfold generate_scientific_columns, row_getitem, mbind, M_bind.
  rewrite Hcol. simpl. rewrite parse_Some by done. simpl. exact Hrun.
Qed.

Lemma wrapper_unprintable `{Stdout} (row : gmap str cell) (col name : str)
    (flag : bool) out :
  row !! col = Some (Text name) →
  tokenize name ≠ [] →
  printable_diagnostics name flag = false →
  ∃ out',
    generate_scientific_columns row col flag out
    = (Raise UnicodeEncodeError, out').
Proof.
  intros Hcol Htok Hp.
  destruct (parse_raise name flag out Htok Hp) as [out' Hr].
  exists out'.
  unfold generate_scientific_columns, row_getitem, mbind, M_bind.
  rewrite Hcol. simpl. by rewrite Hr.
Qed.

Lemma wrapper_blank `{Stdout} (row : gmap str cell) (col name : str)
    (flag : bool) out :
  row !! col = Some (Text name) →
  tokenize name = [] →
  generate_scientific_columns row col flag out = (Raise TypeError, out).
Proof.
  intros Hcol Htok.
  unfold generate_scientific_columns, row_getitem, mbind, M_bind.
  rewrite Hcol. simpl. by rewrite parse_None.
Qed.

Lemma wrapper_missing `{Stdout} (row : gmap str cell) (col : str)
    (flag : bool) out :
  row !! col = None →
  generate_scientific_columns row col flag out = (Raise KeyError, out).
Proof.
  intros Hcol.
  unfold generate_scientific_columns, row_getitem, mbind, M_bind.
  by rewrite Hcol.
Qed.

Lemma wrapper_not_text `{Stdout} (row : gmap str cell) (col : str)
    (c : cell) (flag : bool) out :
  row !! col = Some c →
  (∀ name, c ≠ Text name) →
  generate_scientific_columns row col flag out
  = (Raise AttributeError, out).
Proof.
  intros Hcol Hc.
  unfold generate_scientific_columns, row_getitem, mbind, M_bind.
  rewrite Hcol. simpl. destruct c as [name| |]; [by destruct (Hc name)|..];
    done.
Qed.

(** What a call of the wrapper returned, read backwards. *)
Lemma wrapper_returns `{Stdout} (row row' : gmap str cell) (col : str)
    (flag : bool) out out' :
  generate_scientific_columns row col flag out = (Ok row', out') →
  ∃ name,
    row !! col = Some (Text name) ∧ tokenize name ≠ []
    ∧ printable_diagnostics name flag = true
    ∧ out' = out ++ diagnostics name flag
    ∧ ∀ k, row' !! k
           = if decide (k ∈ field_names)
             then Text <$> getfield (assemble (final_locals name flag)) k
             else row !! k.
Proof.
  intros Hrun.
  destruct (row !! col) as [c|] eqn:Hcol;
    [|by rewrite wrapper_missing in Hrun].
  destruct c as [name| |];
    [|by rewrite (wrapper_not_text row col NoValue) in Hrun
     |by rewrite (wrapper_not_text row col NaN) in Hrun].
  destruct (tokenize name) as [|t ts] eqn:Htok;
    [by rewrite (wrapper_blank row col name) in Hrun|].
  assert (Hne : tokenize name ≠ []) by (by rewrite Htok).
  destruct (printable_diagnostics name flag) eqn:Hp.
  - destruct (wrapper_run row col name flag out Hcol Hne Hp)
      as (row1 & Hrun1 & Hlook1).
    rewrite Hrun1 in Hrun. injection Hrun as <- <-.
    exists name. by rewrite Htok.
  - destruct (wrapper_unprintable row col name flag out Hcol Hne Hp)
      as [out1 Hr].
    congruence.
Qed.

(** X1. On a row whose name column holds a non-blank string, a row the
    wrapper returns is the given row with the parsed fields written in:
    every column named like a parsed field holds the parsed value,
    whatever it held before, every other column is as it was, and the
    lines printed are those of the parser. The wrapper returns such a
    row when every line the parser has to print can be written to
    standard output, and raises [UnicodeEncodeError] when one cannot. *)
Theorem wrapper_adds_parsed_fields `{Stdout} (row : gmap str cell)
    (col name : str) (flag : bool) out :
  row !! col = Some (Text name) →
  forallb isspace name = false →
  (∀ row' out',
     generate_scientific_columns row col flag out = (Ok row', out') →
     ∃ d,
       parse_scientific_name name flag out = (Ok (Some d), out')
       ∧ (∀ k, k ∈ field_names → row' !! k = Text <$> getfield d k)
       ∧ (∀ k, k ∉ field_names → row' !! k = row !! k))
  ∧ (printable_diagnostics name flag = true →
     ∃ row' out',
       generate_scientific_columns row col flag out = (Ok row', out'))
  ∧ (printable_diagnostics name flag = false →
     ∃ out',
       generate_scientific_columns row col flag out
       = (Raise UnicodeEncodeError, out')).
Proof.
  intros Hcol Hblank.
  assert (Htok : tokenize name ≠ []).
  { intros H0. apply tokenize_nil in H0. congruence. }
  split; [|split].
  - intros row' out' Hrun.
    destruct (wrapper_returns _ _ _ _ _ _ Hrun)
      as (name' & Hcol' & _ & Hp & -> & Hlook).
    assert (name' = name) as -> by congruence.
    exists (assemble (final_locals name flag)).
    split; [by apply parse_Some|]. split.
    + intros k Hk. by rewrite Hlook, decide_True.
    + intros k Hk. by rewrite Hlook, decide_False.
  - intros Hp.
    destruct (wrapper_run row col name flag out Hcol Htok Hp)
      as (row' & Hrun & _).
    eauto.
  - intros Hp. by apply (wrapper_unprintable row col name).
Qed.

Lemma wrapper_adds_parsed_fields_witness :
  ({[ lit "name" := Text (lit "Rosa canina var.") ]} : gmap str cell)
    !! lit "name"
  = Some (Text (lit "Rosa canina var."))
  ∧ forallb isspace (lit "Rosa canina var.") = false
  ∧ printable_diagnostics (lit "Rosa canina var.") false = true
  ∧ ∃ row' out',
      generate_scientific_columns
        {[ lit "name" := Text (lit "Rosa canina var.") ]}
        (lit "name") false [] = (Ok row', out')
      ∧ ∃ d,
          parse_scientific_name (lit "Rosa canina var.") false []
          = (Ok (Some d), out')
          ∧ (∀ k, k ∈ field_names → row' !! k = Text <$> getfield d k)
          ∧ (∀ k, k ∉ field_names →
                  row' !! k
                  = ({[ lit "name" := Text (lit "Rosa canina var.") ]}
                     : gmap str cell) !! k).
Proof.
  split; [by vm_compute|]. split; [by vm_compute|].
  split; [by vm_compute|].
  destruct (wrapper_adds_parsed_fields
              {[ lit "name" := Text (lit "Rosa canina var.") ]}
              (lit "name") (lit "Rosa canina var.") false []
              ltac:(by vm_compute) ltac:(by vm_compute))
    as (Hfields & Hreturns & _).
  destruct (Hreturns ltac:(by vm_compute)) as (row' & out' & Hrun).
  exists row', out'. split; [exact Hrun|]. exact (Hfields row' out' Hrun).
Defined.

(** A name cell with a missing epithet and a character that a UTF-8
    standard output cannot write: the wrapper raises before any column is
    written. *)
Example wrapper_raises_on_unprintable_name :
  @generate_scientific_columns utf8_strict
    {[ lit "name" := Text unprintable_variety ]} (lit "name") false []
  = (Raise UnicodeEncodeError, []).
Proof. by vm_compute. Qed.

(** X2. The outcome of the wrapper on every row. It raises [KeyError]
    when the row has no such column, [AttributeError] when the column
    holds [None] or [nan], [TypeError] when it holds an empty or blank
    string, and [UnicodeEncodeError] when it holds a name with a line to
    print that standard output cannot write; in the first three cases
    nothing is printed. In every other case it returns a row, having
    printed the parser's lines. *)
Theorem wrapper_outcome `{Stdout} (row : gmap str cell) (col : str)
    (flag : bool) out :
  match row !! col with
  | None =>
      generate_scientific_columns row col flag out = (Raise KeyError, out)
  | Some NoValue | Some NaN =>
      generate_scientific_columns row col flag out
      = (Raise AttributeError, out)
  | Some (Text name) =>
      if forallb isspace name
      then generate_scientific_columns row col flag out
           = (Raise TypeError, out)
      else if printable_diagnostics name flag
      then ∃ row',
             generate_scientific_columns row col flag out
             = (Ok row', out ++ diagnostics name flag)
      else ∃ out',
             generate_scientific_columns row col flag out
             = (Raise UnicodeEncodeError, out')
  end.
Proof.
  destruct (row !! col) as [c|] eqn:Hcol; [|by apply wrapper_missing].
  destruct c as [name| |];
    [|by apply (wrapper_not_text row col NoValue)
     |by apply (wrapper_not_text row col NaN)].
  destruct (forallb isspace name) eqn:Hblank.
  - apply (wrapper_blank row col name); [done|]. by apply tokenize_nil.
  - assert (Htok : tokenize name ≠ []).
    { intros H0. apply tokenize_nil in H0. congruence. }
    destruct (printable_diagnostics name flag) eqn:Hp.
    + destruct (wrapper_run row col name flag out Hcol Htok Hp)
        as (row' & Hrun & _).
      eauto.
    + by apply (wrapper_unprintable row col name).
Qed.

(** A row with a missing name. *)
Example wrapper_raises_on_missing_value :
  generate_scientific_columns {[ lit "name" := NaN ]} (lit "name") false []
  = (Raise AttributeError, [])
  ∧ generate_scientific_columns {[ lit "name" := NoValue ]} (lit "name")
      true []
    = (Raise AttributeError, []).
Proof. by vm_compute. Qed.

(** X3. Running the wrapper again on the row it returned changes nothing,
    provided the name column is not itself one of the parsed fields: the
    second call returns the same row and prints the same lines. *)
Theorem wrapper_twice `{Stdout} (row row' : gmap str cell) (col : str)
    (flag : bool) out out' out2 :
  col ∉ field_names →
  generate_scientific_columns row col flag out = (Ok row', out') →
  ∃ lines,
    out' = out ++ lines
    ∧ generate_scientific_columns row' col flag out2
      = (Ok row', out2 ++ lines).
Proof.
  intros Hcol Hrun.
  destruct (wrapper_returns _ _ _ _ _ _ Hrun)
    as (name & Hname & Hne & Hp & -> & Hlook1).
  exists (diagnostics name flag). split; [done|].
  assert (Hname' : row' !! col = Some (Text name)).
  { by rewrite Hlook1, decide_False. }
  destruct (wrapper_run row' col name flag out2 Hname' Hne Hp)
    as (row2 & Hrun2 & Hlook2).
  rewrite Hrun2. f_equal. f_equal. apply map_eq. intros k.
  rewrite Hlook2, Hlook1. by destruct (decide (k ∈ field_names)).
Qed.

Lemma wrapper_twice_witness :
  (lit "name" ∉ field_names)
  ∧ ∃ row',
      generate_scientific_columns
        {[ lit "name" := Text (lit "Rosa canina var.") ]}
        (lit "name") false []
      = (Ok row', [variety_diagnostic (lit "Rosa canina var.")])
      ∧ ∃ lines,
          [variety_diagnostic (lit "Rosa canina var.")] = [] ++ lines
          ∧ generate_scientific_columns row' (lit "name") false []
            = (Ok row', [] ++ lines).
Proof.
  assert (Hcol : lit "name" ∉ field_names)
    by (apply (bool_decide_unpack _); by vm_compute).
  split; [exact Hcol|].
  destruct (wrapper_run {[ lit "name" := Text (lit "Rosa canina var.") ]}
              (lit "name") (lit "Rosa canina var.") false [])
    as (row' & Hrun & _); [by vm_compute|by vm_compute|by vm_compute|].
  exists row'. split; [exact Hrun|].
  apply (wrapper_twice {[ lit "name" := Text (lit "Rosa canina var.") ]}
           row' (lit "name") false [] _ []); [exact Hcol|exact Hrun].
Defined.

(** * Further properties of [parse_scientific_name] *)

Lemma scan_output_last (abbrs toks : list str) (line : str) :
  scan_output (scan_spec abbrs toks) line
  = if matches_last abbrs toks then [line] else [].
Proof.
  pose proof (matches_last_missing abbrs toks) as H.
  destruct (matches_last abbrs toks).
  - by rewrite (proj1 H eq_refl).
  - destruct (scan_spec abbrs toks); try done.
    discriminate (proj2 H eq_refl).
Qed.

Lemma diagnostics_printed_lines (name : str) (flag : bool) :
  diagnostics name flag = printed_lines name flag.
Proof.
  unfold diagnostics, printed_lines, form_scan_spec.
  destruct flag; cbn [negb andb]; rewrite !scan_output_last; done.
Qed.

(** X4. A call of the parser that returns has kept what was printed
    before and appended at most three lines, in the order variety,
    subspecies, form: a scan prints its line exactly when the
    abbreviation it matches is the last working token, and the form scan
    prints only when it is switched on. The call returns when standard
    output can write each of these lines, and raises
    [UnicodeEncodeError] when it cannot write one of them. *)
Theorem parser_prints `{Stdout} (name : str) (flag : bool) out :
  (∀ r out',
     parse_scientific_name name flag out = (Ok r, out') →
     out' = out ++ printed_lines name flag)
  ∧ (forallb printable (printed_lines name flag) = true →
     ∃ r,
       parse_scientific_name name flag out
       = (Ok r, out ++ printed_lines name flag))
  ∧ (forallb printable (printed_lines name flag) = false →
     ∃ out',
       parse_scientific_name name flag out
       = (Raise UnicodeEncodeError, out')).
Proof.
  rewrite <- diagnostics_printed_lines.
  fold (printable_diagnostics name flag).
  destruct (tokenize name) as [|t ts] eqn:Htok.
  - rewrite parse_None by done. rewrite diagnostics_nil by done.
    rewrite app_nil_r. split; [|split].
    + intros r out' Hrun. by inversion Hrun.
    + eauto.
    + unfold printable_diagnostics. by rewrite diagnostics_nil.
  - assert (Hne : tokenize name ≠ []) by (by rewrite Htok).
    split; [|split].
    + intros [d|] out' Hrun.
      * by apply parse_returns in Hrun as (_ & _ & ->).
      * destruct (printable_diagnostics name flag) eqn:Hp.
        -- by rewrite parse_Some in Hrun.
        -- destruct (parse_raise name flag out Hne Hp) as [out1 Hr].
           congruence.
    + intros Hp. rewrite parse_Some by done. eauto.
    + intros Hp. by apply parse_raise.
Qed.

Lemma parser_prints_witness :
  forallb printable (printed_lines (lit "Rosa var. alba subsp.") false)
  = true
  ∧ ∃ r,
      parse_scientific_name (lit "Rosa var. alba subsp.") false []
      = (Ok r, [lit "subspecies index out of range:  Rosa var. alba subsp."]).
Proof.
  split; [by vm_compute|].
  destruct (parser_prints (lit "Rosa var. alba subsp.") false [])
    as (_ & Hreturns & _).
  exact (Hreturns ltac:(by vm_compute)).
Defined.

(** On a name with a character that a UTF-8 standard output cannot write,
    the variety scan has a line to print, the call raises at that line
    and no complete line has been written. *)
Example parser_raises_at_first_line :
  printed_lines unprintable_variety false
  = [variety_diagnostic unprintable_variety]
  ∧ @parse_scientific_name utf8_strict unprintable_variety false []
    = (Raise UnicodeEncodeError, []).
Proof. by vm_compute. Qed.

Lemma final_locals_flag (name : str) :
  let l1 := final_locals name true in
  let l2 := final_locals name false in
  Genus l1 = Genus l2 ∧ Species l1 = Species l2
  ∧ Genus_Hybrid l1 = Genus_Hybrid l2
  ∧ Species_Hybrid l1 = Species_Hybrid l2
  ∧ Variety l1 = Variety l2 ∧ Subspecies l1 = Subspecies l2
  ∧ Form l1 = []
  ∧ (Form l2 = [] → l1 = l2).
Proof.
  intros l1 l2. subst l1 l2.
  destruct (final_locals_fields name true)
    as (-> & -> & -> & -> & -> & -> & Hf1 & _).
  destruct (final_locals_fields name false)
    as (-> & -> & -> & -> & -> & -> & Hf2 & _).
  do 6 (split; [done|]). split; [done|].
  rewrite Hf2. intros Hempty.
  rewrite !final_locals_eq.
  assert (Hfound : found (form_scan_spec false (working_tokens name))
                   = false).
  { destruct (found _) eqn:Hfd; [|done].
    apply (epithet_nonempty name) in Hfd; [done|].
    intros e He. by eapply form_scan_spec_elem. }
  simpl form_scan_spec at 1.
  by destruct (form_scan_spec false (working_tokens name)).
Qed.

(** X5. The flag [ingnore_form] touches nothing but the form scan: with
    and without it genus, species, both hybrid markers, variety and
    subspecies are the same; with it [form] is empty; and when the name
    has no form epithet the two dictionaries are equal. *)
Theorem flag_only_affects_form `{Stdout} (name : str) out (d1 d2 : dict)
    out1 out2 :
  parse_scientific_name name true out = (Ok (Some d1), out1) →
  parse_scientific_name name false out = (Ok (Some d2), out2) →
  (∀ k, k ∈ [lit "genus"; lit "species"; lit "genus_hybrid";
             lit "species_hybrid"; lit "variety"; lit "subspecies"] →
        getfield d1 k = getfield d2 k)
  ∧ getfield d1 (lit "form") = Some []
  ∧ (getfield d2 (lit "form") = Some [] → d1 = d2).
Proof.
  intros H1 H2.
  apply parse_returns in H1 as (_ & -> & _).
  apply parse_returns in H2 as (_ & -> & _).
  destruct (final_locals_flag name)
    as (Hg & Hs & Hgh & Hsh & Hv & Hsub & Hf & Hsame).
  split; [|split].
  - intros k Hk. unfold assemble.
    repeat (apply elem_of_cons in Hk as [->|Hk];
            [simpl; congruence|]).
    inversion Hk.
  - simpl. by rewrite Hf.
  - simpl. intros [= Hform]. by rewrite Hsame.
Qed.

Lemma flag_only_affects_form_witness :
  parse_scientific_name (lit "Rosa canina f. alba") true []
  = (Ok (Some [(lit "taxon_rank", lit "Species");
               (lit "genus", lit "Rosa");
               (lit "species", lit "canina");
               (lit "genus_hybrid", []);
               (lit "species_hybrid", []);
               (lit "infraspecies", []);
               (lit "variety", []);
               (lit "subspecies", []);
               (lit "form", [])]), [])
  ∧ parse_scientific_name (lit "Rosa canina f. alba") false []
    = (Ok (Some [(lit "taxon_rank", lit "Form");
                 (lit "genus", lit "Rosa");
                 (lit "species", lit "canina");
                 (lit "genus_hybrid", []);
                 (lit "species_hybrid", []);
                 (lit "infraspecies", lit "alba");
                 (lit "variety", []);
                 (lit "subspecies", []);
                 (lit "form", lit "alba")]), [])
  ∧ getfield [(lit "taxon_rank", lit "Species");
              (lit "genus", lit "Rosa");
              (lit "species", lit "canina");
              (lit "genus_hybrid", []);
              (lit "species_hybrid", []);
              (lit "infraspecies", []);
              (lit "variety", []);
              (lit "subspecies", []);
              (lit "form", [])] (lit "form") = Some [].
Proof.
  split; [by vm_compute|]. split; [by vm_compute|].
  eapply (flag_only_affects_form (lit "Rosa canina f. alba") [] _ _ [] []);
    by vm_compute.
Defined.

(** ** The characters of a name and of its tokens *)

(** A property of characters that every whitespace character and the
    three characters of the normalisation have holds of a name exactly
    when it holds of the tokens of the cleaned name. *)
Section Characters.

Variable P : N → Prop.

Lemma replace_from_chars (old new : str) (s : str) (k : nat) :
  old ≠ [] → Forall P old → Forall P new →
  Forall P (replace_from old new k s) ↔ Forall P (drop k s).
Proof.
  intros Hne Hold Hnew. revert k.
  induction s as [|c s IH]; intros k.
  - by destruct k.
  - destruct k as [|k]; [|simpl; apply IH].
    rewrite drop_0.
    change (replace_from old new 0 (c :: s))
      with (if startswith (c :: s) old
            then new ++ replace_from old new (length old - 1) s
            else c :: replace_from old new 0 s).
    destruct (startswith (c :: s) old) eqn:Hsw.
    + apply startswith_app in Hsw.
      destruct old as [|o old']; [done|]. simpl in Hsw.
      injection Hsw as Hc Hs.
      rewrite Forall_app, IH. simpl. rewrite Nat.sub_0_r.
      rewrite Forall_cons. rewrite Hs at 2. rewrite Forall_app.
      apply Forall_cons in Hold as [Ho Hold]. subst c.
      intuition.
    + rewrite !Forall_cons, IH, drop_0. done.
Qed.

Lemma replace_chars (s old new : str) :
  old ≠ [] → Forall P old → Forall P new →
  Forall P (replace s old new) ↔ Forall P s.
Proof.
  intros Hne Hold Hnew. unfold replace.
  by rewrite replace_from_chars, drop_0.
Qed.

Hypothesis Hspace : ∀ c, isspace c = true → P c.

Lemma split_from_chars (cur s : str) :
  Forall (Forall P) (split_from cur s) ↔ Forall P cur ∧ Forall P s.
Proof.
  revert cur. induction s as [|c s IH]; intros cur; simpl.
  - destruct cur as [|d cur].
    + split; [done|]. intros _. constructor.
    + rewrite Forall_singleton, Forall_reverse.
      split; [done|]. by intros [? _].
  - destruct (isspace c) eqn:Hc.
    + rewrite Forall_cons. destruct cur as [|d cur].
      * rewrite IH. intuition.
      * rewrite (Forall_cons _ (reverse (d :: cur))), IH, Forall_reverse.
        intuition.
    + rewrite IH, !Forall_cons. intuition.
Qed.

Hypothesis Hx : P 120%N.
Hypothesis HX : P 88%N.
Hypothesis Htimes : P times.

Lemma tokenize_chars (name : str) :
  Forall (Forall P) (tokenize name) ↔ Forall P name.
Proof.
  assert (Hsp : P space) by (by apply Hspace).
  unfold tokenize, split, clean. rewrite split_from_chars.
  rewrite !replace_chars; try done.
  - split; [by intros [_ ?]|done].
  - by repeat constructor.
  - by repeat constructor.
  - by repeat constructor.
  - by repeat constructor.
Qed.

End Characters.

Lemma forallb_Forall {A} (f : A → bool) (l : list A) :
  forallb f l = true ↔ Forall (λ a, f a = true) l.
Proof.
  induction l as [|a l IH]; simpl.
  - split; [constructor|done].
  - rewrite andb_true_iff, Forall_cons, IH. done.
Qed.

(** Two lines that quote names with the same tokens can be written to
    the same streams, among those that write whitespace, [x], [X] and the
    hybrid sign. *)
Lemma printable_tokens `{Stdout} (name1 name2 prefix : str) :
  (∀ c, isspace c = true ∨ c ∈ [120%N; 88%N; times] →
        encodable c = true) →
  tokenize name1 = tokenize name2 →
  printable (prefix ++ space :: name1)
  = printable (prefix ++ space :: name2).
Proof.
  intros Henc Heq.
  assert (Hsame : forallb encodable name1 = forallb encodable name2).
  { apply eq_true_iff_eq. rewrite !forallb_Forall.
    rewrite <- !(tokenize_chars (λ c, encodable c = true)), Heq; try done.
    all: intros; apply Henc; auto.
    all: right; apply (bool_decide_unpack _); by vm_compute. }
  unfold printable.
  rewrite <- !app_assoc, !forallb_app. cbn [app forallb].
  by rewrite ?forallb_app, Hsame.
Qed.

Lemma printable_diagnostics_tokens `{Stdout} (name1 name2 : str)
    (flag : bool) :
  (∀ c, isspace c = true ∨ c ∈ [120%N; 88%N; times] →
        encodable c = true) →
  tokenize name1 = tokenize name2 →
  printable_diagnostics name1 flag = printable_diagnostics name2 flag.
Proof.
  intros Henc Heq.
  assert (Hw : working_tokens name1 = working_tokens name2)
    by (unfold working_tokens, classified; by rewrite Heq).
  unfold printable_diagnostics, diagnostics. rewrite Hw.
  unfold variety_diagnostic, subspecies_diagnostic, form_diagnostic.
  rewrite !forallb_app.
  destruct (scan_spec variety_abbreviations (working_tokens name2)),
    (scan_spec subspecies_abbreviations (working_tokens name2)),
    (form_scan_spec flag (working_tokens name2)); cbn [scan_output forallb];
    rewrite ?(printable_tokens name1 name2) by done; done.
Qed.

Lemma final_locals_tokens (name1 name2 : str) (flag : bool) :
  tokenize name1 = tokenize name2 →
  final_locals name1 flag = final_locals name2 flag.
Proof.
  intros Heq.
  assert (Hc : classified name1 = classified name2)
    by (unfold classified; by rewrite Heq).
  assert (Hw : working_tokens name1 = working_tokens name2)
    by (unfold working_tokens; by rewrite Hc).
  by rewrite !final_locals_eq, Hc, Hw.
Qed.

(** X6. The outcome of a call depends on the name only through the
    tokens of the cleaned input, as far as standard output lets it: two
    names with the same tokens, however they are spaced, give the same
    dictionary (or both give [None]) whenever both calls return; the two
    calls have the same outcome, returned or raised, when the lines of
    both names or of neither can be written; and that is so for every
    pair of such names when standard output can write whitespace, [x],
    [X] and the hybrid sign, as a UTF-8 stream can. *)
Theorem parse_depends_on_tokens `{Stdout} (name1 name2 : str)
    (flag : bool) out :
  tokenize name1 = tokenize name2 →
  (∀ r1 out1 r2 out2,
     parse_scientific_name name1 flag out = (Ok r1, out1) →
     parse_scientific_name name2 flag out = (Ok r2, out2) →
     r1 = r2)
  ∧ (printable_diagnostics name1 flag = printable_diagnostics name2 flag →
     (parse_scientific_name name1 flag out).1
     = (parse_scientific_name name2 flag out).1)
  ∧ ((∀ c, isspace c = true ∨ c ∈ [120%N; 88%N; times] →
           encodable c = true) →
     (parse_scientific_name name1 flag out).1
     = (parse_scientific_name name2 flag out).1).
Proof.
  intros Heq.
  pose proof (final_locals_tokens name1 name2 flag Heq) as Hl.
  cut ((∀ r1 out1 r2 out2,
          parse_scientific_name name1 flag out = (Ok r1, out1) →
          parse_scientific_name name2 flag out = (Ok r2, out2) →
          r1 = r2)
       ∧ (printable_diagnostics name1 flag
          = printable_diagnostics name2 flag →
          (parse_scientific_name name1 flag out).1
          = (parse_scientific_name name2 flag out).1)).
  { intros [Hret Hsame]. split; [done|]. split; [done|].
    intros Henc. apply Hsame. by apply printable_diagnostics_tokens. }
  destruct (tokenize name2) as [|t ts] eqn:Htok.
  - rewrite !parse_None by done. split; [|done].
    intros r1 out1 r2 out2 H1 H2. inversion H1. by inversion H2.
  - assert (Hne1 : tokenize name1 ≠ []) by congruence.
    assert (Hne2 : tokenize name2 ≠ []) by congruence.
    split.
    + intros [d1|] out1 [d2|] out2 H1 H2.
      * apply parse_returns in H1 as (_ & -> & _).
        apply parse_returns in H2 as (_ & -> & _).
        by rewrite Hl.
      * exfalso. destruct (printable_diagnostics name2 flag) eqn:Hp.
        -- by rewrite parse_Some in H2.
        -- destruct (parse_raise name2 flag out Hne2 Hp) as [o Hr].
           congruence.
      * exfalso. destruct (printable_diagnostics name1 flag) eqn:Hp.
        -- by rewrite parse_Some in H1.
        -- destruct (parse_raise name1 flag out Hne1 Hp) as [o Hr].
           congruence.
      * done.
    + intros Hp. destruct (printable_diagnostics name2 flag) eqn:Hp2.
      * rewrite !parse_Some by done. simpl. by rewrite Hl.
      * destruct (parse_raise name1 flag out Hne1 Hp) as [o1 ->].
        destruct (parse_raise name2 flag out Hne2 Hp2) as [o2 ->].
        done.
Qed.

Lemma parse_depends_on_tokens_witness :
  tokenize (lit "  Rosa   canina ") = tokenize (lit "Rosa canina")
  ∧ (parse_scientific_name (lit "  Rosa   canina ") false []).1
    = (parse_scientific_name (lit "Rosa canina") false []).1.
Proof.
  split; [by vm_compute|].
  destruct (parse_depends_on_tokens (lit "  Rosa   canina ")
              (lit "Rosa canina") false [] ltac:(by vm_compute))
    as (_ & Hsame & _).
  exact (Hsame ltac:(by vm_compute)).
Defined.

(** Equal tokens alone do not give equal outcomes: the line printed
    carries the name as it was written. On a standard output that writes
    ASCII only, [Rosa x var.] is parsed and its line printed, while
    [Rosa × var.], which has the same tokens, raises. *)
Example same_tokens_different_outcome :
  tokenize (lit "Rosa x var.")
  = tokenize (lit "Rosa " ++ times :: lit " var.")
  ∧ (∃ d out',
       @parse_scientific_name ascii_strict (lit "Rosa x var.") false []
       = (Ok (Some d), out'))
  ∧ @parse_scientific_name ascii_strict
      (lit "Rosa " ++ times :: lit " var.") false []
    = (Raise UnicodeEncodeError, []).
Proof.
  split; [by vm_compute|]. split; [|by vm_compute].
  eexists _, _. by vm_compute.
Qed.

(** A UTF-8 stream writes every whitespace character, [x], [X] and the
    hybrid sign: none of them is a surrogate. *)
Lemma utf8_writes_separators (c : N) :
  isspace c = true ∨ c ∈ [120%N; 88%N; times] →
  @encodable utf8_strict c = true.
Proof.
  intros Hc. simpl. apply negb_true_iff, andb_false_iff. left.
  apply N.leb_gt. destruct Hc as [Hc|Hc].
  - unfold isspace in Hc.
    repeat (rewrite ?orb_true_iff, ?andb_true_iff, ?N.leb_le, ?N.eqb_eq
              in Hc).
    lia.
  - repeat (apply elem_of_cons in Hc as [->|Hc]; [done|]). inversion Hc.
Qed.

(** * Invariants of the returned dictionary *)

Lemma scan_needs_two (abbrs toks : list str) (e : str) :
  scan_spec abbrs toks = Epithet e → 2 ≤ length toks.
Proof.
  unfold scan_spec. destruct (first_present abbrs toks) as [a|]; [|done].
  destruct (find_index toks a) as [i|]; [|done].
  destruct (toks !! (i + 1)) eqn:H; [|done].
  intros _. apply lookup_lt_Some in H. lia.
Qed.

Lemma found_epithet (name : str) (r : scan_result) :
  (∀ e, r = Epithet e → e ∈ working_tokens name) →
  found r = match epithet_of r with [] => false | _ :: _ => true end.
Proof.
  intros H. pose proof (epithet_nonempty name r H) as Hne.
  destruct r as [| |e]; simpl in *; [done|done|].
  destruct e; [|done]. by destruct (proj2 Hne eq_refl).
Qed.

Lemma classified_rank (name : str) :
  Taxon_Rank (classified name) ∈ [[]; lit "Genus"; lit "Species"].
Proof.
  destruct (tokenize name) as [|t ts] eqn:Htok.
  - unfold classified. rewrite Htok. simpl. by left.
  - destruct (tokenize_first _ _ _ Htok) as (c & t' & ->).
    destruct (classified_fields name c t' ts Htok)
      as (_ & _ & _ & _ & _ & _ & ->).
    destruct (working_tokens name) as [|x [|y r]];
      try (right; right; by left);
      destruct ts as [|a [|a' ts']];
      try destruct (inlist a abbreviation_ignore);
      (by left) || (right; by left).
Qed.

Lemma classified_species (name : str) :
  Species (classified name) = [] ↔ length (working_tokens name) < 2.
Proof.
  destruct (tokenize name) as [|t ts] eqn:Htok.
  - rewrite working_tokens_nil by done. unfold classified.
    rewrite Htok. simpl. split; [lia|done].
  - destruct (tokenize_first _ _ _ Htok) as (c & t' & ->).
    destruct (classified_fields name c t' ts Htok)
      as (_ & _ & _ & _ & _ & -> & _).
    pose proof (working_tokens_words name) as Hall.
    destruct (working_tokens name) as [|x [|y r]]; simpl;
      [split; [lia|done]|split; [lia|done]|].
    apply Forall_cons in Hall as [_ Hall].
    apply Forall_cons in Hall as [[Hy _] _].
    split; [done|lia].
Qed.

(** The record when the dictionary is assembled, read off its own
    fields. *)
Lemma final_locals_record (name : str) (flag : bool) :
  let l := final_locals name flag in
  Infraspecies l
  = match Form l, Subspecies l with
    | _ :: _, _ => Form l
    | [], _ :: _ => Subspecies l
    | [], [] => Variety l
    end
  ∧ Taxon_Rank l
    = match Form l, Subspecies l, Variety l with
      | _ :: _, _, _ => lit "Form"
      | [], _ :: _, _ => lit "Subspecies"
      | [], [], _ :: _ => lit "Variety"
      | [], [], [] => Taxon_Rank (classified name)
      end
  ∧ (length (working_tokens name) < 2 →
     Form l = [] ∧ Subspecies l = [] ∧ Variety l = []).
Proof.
  intros l. subst l.
  destruct (final_locals_fields name flag)
    as (_ & _ & _ & _ & -> & -> & -> & -> & ->).
  rewrite !(found_epithet name);
    try (intros e He; by eapply scan_spec_elem);
    try (intros e He; by eapply form_scan_spec_elem).
  split; [|split].
  - destruct (epithet_of (form_scan_spec flag (working_tokens name)));
      [|done].
    by destruct (epithet_of (scan_spec subspecies_abbreviations
                               (working_tokens name))).
  - destruct (epithet_of (form_scan_spec flag (working_tokens name)));
      [|done].
    destruct (epithet_of (scan_spec subspecies_abbreviations
                            (working_tokens name))); [|done].
    by destruct (epithet_of (scan_spec variety_abbreviations
                               (working_tokens name))).
  - intros Hlen.
    assert (Hnone : ∀ abbrs,
              epithet_of (scan_spec abbrs (working_tokens name)) = []).
    { intros abbrs.
      destruct (scan_spec abbrs (working_tokens name)) eqn:Hs; try done.
      apply scan_needs_two in Hs. lia. }
    rewrite !Hnone. unfold form_scan_spec.
    destruct flag; [done|]. by rewrite Hnone.
Qed.

(** X7. Read from the dictionary alone: [infraspecies] repeats [form] when
    that is set, else [subspecies] when that is set, else [variety]; and
    the rank is Form, Subspecies or Variety exactly when the
    corresponding field is the one repeated. *)
Theorem infraspecies_repeats_last_field `{Stdout} (name : str)
    (flag : bool) out
    (d : dict) out' :
  parse_scientific_name name flag out = (Ok (Some d), out') →
  ∃ rank i v s f,
    getfield d (lit "taxon_rank") = Some rank
    ∧ getfield d (lit "infraspecies") = Some i
    ∧ getfield d (lit "variety") = Some v
    ∧ getfield d (lit "subspecies") = Some s
    ∧ getfield d (lit "form") = Some f
    ∧ i = match f, s with
          | _ :: _, _ => f
          | [], _ :: _ => s
          | [], [] => v
          end
    ∧ (rank = lit "Form" ↔ f ≠ [])
    ∧ (rank = lit "Subspecies" ↔ f = [] ∧ s ≠ [])
    ∧ (rank = lit "Variety" ↔ f = [] ∧ s = [] ∧ v ≠ []).
Proof.
  intros Hrun. apply parse_returns in Hrun as (_ & -> & _).
  exists (Taxon_Rank (final_locals name flag)),
    (Infraspecies (final_locals name flag)),
    (Variety (final_locals name flag)),
    (Subspecies (final_locals name flag)),
    (Form (final_locals name flag)).
  do 5 (split; [done|]).
  destruct (final_locals_record name flag) as (Hi & Hr & _).
  split; [done|]. rewrite Hr.
  pose proof (classified_rank name) as Hc.
  assert (Hnot : Taxon_Rank (classified name) ≠ lit "Form"
                 ∧ Taxon_Rank (classified name) ≠ lit "Subspecies"
                 ∧ Taxon_Rank (classified name) ≠ lit "Variety").
  { repeat (apply elem_of_cons in Hc as [->|Hc]; [by vm_compute|]).
    inversion Hc. }
  destruct Hnot as (Hn1 & Hn2 & Hn3).
  destruct (Form (final_locals name flag)),
    (Subspecies (final_locals name flag)),
    (Variety (final_locals name flag));
    repeat split; try done; try (by intros (? & ?));
    try (by intros (? & ? & ?)); try (intros H; by vm_compute in H).
Qed.

Lemma infraspecies_repeats_last_field_witness :
  parse_scientific_name (lit "Rosa canina var. alba subsp. rubra") false []
  = (Ok (Some rosa_var_subsp), [])
  ∧ ∃ rank i v s f,
      getfield rosa_var_subsp (lit "taxon_rank") = Some rank
      ∧ getfield rosa_var_subsp (lit "infraspecies") = Some i
      ∧ getfield rosa_var_subsp (lit "variety") = Some v
      ∧ getfield rosa_var_subsp (lit "subspecies") = Some s
      ∧ getfield rosa_var_subsp (lit "form") = Some f
      ∧ i = match f, s with
            | _ :: _, _ => f
            | [], _ :: _ => s
            | [], [] => v
            end
      ∧ (rank = lit "Form" ↔ f ≠ [])
      ∧ (rank = lit "Subspecies" ↔ f = [] ∧ s ≠ [])
      ∧ (rank = lit "Variety" ↔ f = [] ∧ s = [] ∧ v ≠ []).
Proof.
  split; [by vm_compute|].
  apply (infraspecies_repeats_last_field
           (lit "Rosa canina var. alba subsp. rubra") false []
           rosa_var_subsp []).
  by vm_compute.
Defined.

Lemma detection_tokens_shape (name : str) (t : str) (ts : list str) :
  tokenize name = t :: ts →
  (ts = [] ∨ (∃ a, ts = [a] ∧ inlist a abbreviation_ignore = true)) →
  length (detection_tokens name) = 1
  ∧ Taxon_Rank (classified name) = lit "Genus".
Proof.
  intros Htok Hts.
  destruct (tokenize_first _ _ _ Htok) as (c & t' & ->).
  destruct (classified_fields name c t' ts Htok)
    as (Hdet & Hwork & _ & _ & _ & _ & Hrank).
  assert (Hlen : length (detection_tokens name) = 1).
  { rewrite Hdet. destruct Hts as [->|(a & -> & Ha)]; [done|].
    by rewrite Ha. }
  split; [done|]. rewrite Hrank.
  assert (Hw : length (working_tokens name) ≤ 1).
  { rewrite Hwork. destruct (existsb _ _); [|lia].
    etrans; [apply length_filter|]. rewrite length_map. lia. }
  destruct (working_tokens name) as [|x [|y r]]; [| |simpl in Hw; lia].
  all: destruct Hts as [->|(a & -> & Ha)]; [done|by rewrite Ha].
Qed.

Lemma detection_tokens_long (name : str) (t : str) (ts : list str) :
  tokenize name = t :: ts →
  ¬ (ts = [] ∨ (∃ a, ts = [a] ∧ inlist a abbreviation_ignore = true)) →
  2 ≤ length (detection_tokens name)
  ∧ (length (working_tokens name) < 2 →
     Taxon_Rank (classified name) = []
     ∧ Species_Hybrid (classified name) = [times]).
Proof.
  intros Htok Hts.
  destruct (tokenize_first _ _ _ Htok) as (c & t' & ->).
  destruct (classified_fields name c t' ts Htok)
    as (Hdet & Hwork & _ & _ & Hsh & _ & Hrank).
  assert (Hlen : 2 ≤ length (detection_tokens name)).
  { rewrite Hdet. destruct ts as [|a [|a' ts']]; simpl; [| |lia].
    - destruct Hts. by left.
    - destruct (inlist a abbreviation_ignore) eqn:Ha; simpl; [|lia].
      destruct Hts. right. eauto. }
  split; [done|]. intros Hw. split.
  - rewrite Hrank.
    destruct (working_tokens name) as [|x [|y r]]; [| |simpl in Hw; lia].
    all: destruct ts as [|a [|a' ts']]; [destruct Hts; by left| |done].
    all: destruct (inlist a abbreviation_ignore) eqn:Ha; [|done].
    all: destruct Hts; right; eauto.
  - rewrite Hsh. destruct (existsb _ (detection_tokens name)); [done|].
    rewrite Hwork in Hw. lia.
Qed.

(** X8. The rank is Genus exactly when the cleaned input has one token, or
    two tokens of which the second is an ignorable abbreviation. *)
Theorem rank_genus_iff `{Stdout} (name : str) (flag : bool) out (d : dict)
    out' :
  parse_scientific_name name flag out = (Ok (Some d), out') →
  getfield d (lit "taxon_rank") = Some (lit "Genus")
  ↔ (∃ t, tokenize name = [t])
    ∨ (∃ t a, tokenize name = [t; a]
              ∧ inlist a abbreviation_ignore = true).
Proof.
  intros Hrun. apply parse_returns in Hrun as (Htok & -> & _).
  destruct (tokenize name) as [|t ts] eqn:Hts; [done|]. clear Htok.
  destruct (final_locals_record name flag) as (_ & Hr & Hshort).
  change (getfield (assemble (final_locals name flag)) (lit "taxon_rank"))
    with (Some (Taxon_Rank (final_locals name flag))).
  assert (Hdec : (ts = [] ∨ (∃ a, ts = [a]
                                  ∧ inlist a abbreviation_ignore = true))
                 ∨ ¬ (ts = [] ∨ (∃ a, ts = [a]
                                      ∧ inlist a abbreviation_ignore
                                        = true))).
  { destruct ts as [|a [|a' ts']]; [left; by left| |].
    - destruct (inlist a abbreviation_ignore) eqn:Ha;
        [left; right; eauto|].
      right. intros [?|(a0 & [= <-] & ?)]; congruence.
    - right. intros [?|(a0 & ? & _)]; congruence. }
  destruct Hdec as [Hcase|Hcase].
  - destruct (detection_tokens_shape name t ts Hts Hcase) as [Hlen Hrank].
    assert (Hw : length (working_tokens name) < 2).
    { destruct (tokenize_first _ _ _ Hts) as (c & t' & ->).
      destruct (classified_fields name c t' ts Hts) as (_ & -> & _).
      destruct (existsb _ _); [|lia].
      apply Nat.le_lt_trans with (length (detection_tokens name)); [|lia].
      etrans; [apply length_filter|]. by rewrite length_map. }
    destruct (Hshort Hw) as (Hf & Hs & Hv).
    rewrite Hf, Hs, Hv in Hr. rewrite Hr, Hrank. split; [|done].
    intros _. destruct Hcase as [->|(a & -> & Ha)]; [left|right]; eauto.
  - split.
    + intros [= Hgenus]. exfalso.
      destruct (detection_tokens_long name t ts Hts Hcase) as [_ Hlong].
      rewrite Hr in Hgenus.
      destruct (Form (final_locals name flag));
        [|by vm_compute in Hgenus].
      destruct (Subspecies (final_locals name flag));
        [|by vm_compute in Hgenus].
      destruct (Variety (final_locals name flag));
        [|by vm_compute in Hgenus].
      destruct (tokenize_first _ _ _ Hts) as (c & t' & ->).
      destruct (classified_fields name c t' ts Hts)
        as (_ & _ & _ & _ & _ & _ & Hrank).
      rewrite Hrank in Hgenus.
      destruct (working_tokens name) as [|x [|y r]] eqn:Hw;
        [| |by vm_compute in Hgenus].
      all: destruct Hlong as [Hempty _]; [simpl; lia|].
      all: rewrite Hrank in Hempty; by rewrite Hempty in Hgenus.
    + intros [(t0 & [= -> ->])|(t0 & a & [= -> ->] & Ha)];
        destruct Hcase; [by left|right; eauto].
Qed.

Lemma rank_genus_iff_witness :
  parse_scientific_name (lit "Rosa cv.") false []
  = (Ok (Some [(lit "taxon_rank", lit "Genus");
               (lit "genus", lit "Rosa");
               (lit "species", []);
               (lit "genus_hybrid", []);
               (lit "species_hybrid", []);
               (lit "infraspecies", []);
               (lit "variety", []);
               (lit "subspecies", []);
               (lit "form", [])]), [])
  ∧ ((∃ t, tokenize (lit "Rosa cv.") = [t])
     ∨ (∃ t a, tokenize (lit "Rosa cv.") = [t; a]
               ∧ inlist a abbreviation_ignore = true)).
Proof.
  split; [by vm_compute|].
  eapply (rank_genus_iff (lit "Rosa cv.") false [] _ []);
    by vm_compute.
Defined.

(** X9. The rank is one of the empty string, Genus, Species, Variety,
    Subspecies and Form. A dictionary without species has rank Genus or
    the empty rank and no infraspecific field set; the empty rank occurs
    only when the hybrid sign was found and stripping it left fewer than
    two tokens. *)
Theorem rank_range `{Stdout} (name : str) (flag : bool) out (d : dict)
    out' :
  parse_scientific_name name flag out = (Ok (Some d), out') →
  ∃ rank sp,
    getfield d (lit "taxon_rank") = Some rank
    ∧ getfield d (lit "species") = Some sp
    ∧ rank ∈ [[]; lit "Genus"; lit "Species"; lit "Variety";
              lit "Subspecies"; lit "Form"]
    ∧ (sp = [] →
       rank ∈ [[]; lit "Genus"]
       ∧ getfield d (lit "infraspecies") = Some []
       ∧ getfield d (lit "variety") = Some []
       ∧ getfield d (lit "subspecies") = Some []
       ∧ getfield d (lit "form") = Some [])
    ∧ (rank = [] →
       sp = [] ∧ getfield d (lit "species_hybrid") = Some [times]
       ∧ length (working_tokens name) < 2).
Proof.
  intros Hrun. apply parse_returns in Hrun as (Htok & -> & _).
  exists (Taxon_Rank (final_locals name flag)),
    (Species (final_locals name flag)).
  split; [done|]. split; [done|].
  destruct (final_locals_record name flag) as (Hi & Hr & Hshort).
  destruct (final_locals_fields name flag) as (_ & Hsp & _ & Hsh & _).
  pose proof (classified_rank name) as Hc.
  pose proof (classified_species name) as Hspecies.
  change (getfield (assemble (final_locals name flag)) (lit "infraspecies"))
    with (Some (Infraspecies (final_locals name flag))).
  change (getfield (assemble (final_locals name flag)) (lit "variety"))
    with (Some (Variety (final_locals name flag))).
  change (getfield (assemble (final_locals name flag)) (lit "subspecies"))
    with (Some (Subspecies (final_locals name flag))).
  change (getfield (assemble (final_locals name flag)) (lit "form"))
    with (Some (Form (final_locals name flag))).
  change (getfield (assemble (final_locals name flag))
            (lit "species_hybrid"))
    with (Some (Species_Hybrid (final_locals name flag))).
  rewrite Hsp, Hsh.
  split; [|split].
  - rewrite Hr.
    destruct (Form (final_locals name flag));
      [|do 5 right; by left].
    destruct (Subspecies (final_locals name flag));
      [|do 4 right; by left].
    destruct (Variety (final_locals name flag));
      [|do 3 right; by left].
    repeat (apply elem_of_cons in Hc as [->|Hc]);
      [by left|right; by left|do 2 right; by left|inversion Hc].
  - intros Hempty. apply Hspecies in Hempty.
    destruct (Hshort Hempty) as (Hf & Hs & Hv).
    rewrite Hi, Hr, Hf, Hs, Hv. split; [|done].
    destruct (tokenize name) as [|t ts] eqn:Hts; [done|].
    destruct (tokenize_first _ _ _ Hts) as (c & t' & ->).
    destruct (classified_fields name c t' ts Hts)
      as (_ & _ & _ & _ & _ & _ & ->).
    destruct (working_tokens name) as [|x [|y r]];
      [| |simpl in Hempty; lia].
    all: destruct ts as [|a [|a' ts']];
      try destruct (inlist a abbreviation_ignore);
      (by left) || (right; by left).
  - intros Hrank. rewrite Hr in Hrank.
    destruct (Form (final_locals name flag));
      [|by vm_compute in Hrank].
    destruct (Subspecies (final_locals name flag));
      [|by vm_compute in Hrank].
    destruct (Variety (final_locals name flag));
      [|by vm_compute in Hrank].
    destruct (tokenize name) as [|t ts] eqn:Hts; [done|].
    assert (Hw : length (working_tokens name) < 2).
    { destruct (tokenize_first _ _ _ Hts) as (c & t' & ->).
      destruct (classified_fields name c t' ts Hts)
        as (_ & _ & _ & _ & _ & _ & Hcr).
      rewrite Hcr in Hrank.
      destruct (working_tokens name) as [|x [|y r]]; simpl; [lia|lia|].
      by vm_compute in Hrank. }
    split; [by apply Hspecies|]. split; [|done].
    assert (Hcase : ¬ (ts = [] ∨ (∃ a, ts = [a]
                                       ∧ inlist a abbreviation_ignore
                                         = true))).
    { intros Hcase.
      destruct (detection_tokens_shape name t ts Hts Hcase) as [_ Hg].
      rewrite Hg in Hrank. by vm_compute in Hrank. }
    destruct (detection_tokens_long name t ts Hts Hcase) as [_ Hlong].
    destruct (Hlong Hw) as [_ ->]. done.
Qed.

Lemma rank_range_witness :
  parse_scientific_name (lit "Rosa " ++ times :: space :: [times]) false []
  = (Ok (Some [(lit "taxon_rank", []);
               (lit "genus", lit "Rosa");
               (lit "species", []);
               (lit "genus_hybrid", []);
               (lit "species_hybrid", [times]);
               (lit "infraspecies", []);
               (lit "variety", []);
               (lit "subspecies", []);
               (lit "form", [])]), [])
  ∧ ∃ rank sp,
      getfield [(lit "taxon_rank", []);
                (lit "genus", lit "Rosa");
                (lit "species", []);
                (lit "genus_hybrid", []);
                (lit "species_hybrid", [times]);
                (lit "infraspecies", []);
                (lit "variety", []);
                (lit "subspecies", []);
                (lit "form", [])] (lit "taxon_rank") = Some rank
      ∧ getfield [(lit "taxon_rank", []);
                  (lit "genus", lit "Rosa");
                  (lit "species", []);
                  (lit "genus_hybrid", []);
                  (lit "species_hybrid", [times]);
                  (lit "infraspecies", []);
                  (lit "variety", []);
                  (lit "subspecies", []);
                  (lit "form", [])] (lit "species") = Some sp
      ∧ rank ∈ [[]; lit "Genus"; lit "Species"; lit "Variety";
                lit "Subspecies"; lit "Form"].
Proof.
  split; [by vm_compute|].
  destruct (rank_range (lit "Rosa " ++ times :: space :: [times]) false []
              _ [] ltac:(by vm_compute))
    as (rank & sp & Hr & Hs & Hin & _).
  by exists rank, sp.
Defined.

(** X10. Every field taken from the name is a clean token: the genus is
    not empty and holds no blank; species, infraspecies, variety,
    subspecies and form are each empty or a non-empty token that holds
    neither a blank nor the hybrid sign. *)
Theorem fields_are_tokens `{Stdout} (name : str) (flag : bool) out
    (d : dict) out' :
  parse_scientific_name name flag out = (Ok (Some d), out') →
  (∃ g, getfield d (lit "genus") = Some g ∧ word g)
  ∧ ∀ k, k ∈ [lit "species"; lit "infraspecies"; lit "variety";
              lit "subspecies"; lit "form"] →
         ∃ v, getfield d k = Some v ∧ (v = [] ∨ (word v ∧ times ∉ v)).
Proof.
  intros Hrun. apply parse_returns in Hrun as (Htok & -> & _).
  pose proof (working_tokens_words name) as Hwords.
  pose proof (working_tokens_no_times name) as Hclean.
  rewrite Forall_forall in Hwords, Hclean.
  destruct (final_locals_fields name flag)
    as (Hg & Hsp & _ & _ & Hv & Hs & Hf & _).
  assert (Htoken : ∀ v, v = [] ∨ v ∈ working_tokens name →
                        v = [] ∨ (word v ∧ times ∉ v)).
  { intros v [->|Hin]; [by left|right]. split; [by apply Hwords|].
    by apply Hclean. }
  assert (Hep : ∀ abbrs,
            epithet_of (scan_spec abbrs (working_tokens name)) = []
            ∨ epithet_of (scan_spec abbrs (working_tokens name))
              ∈ working_tokens name).
  { intros abbrs.
    destruct (scan_spec abbrs (working_tokens name)) eqn:Hscan;
      [by left|by left|right]. by eapply scan_spec_elem. }
  split.
  - exists (Genus (final_locals name flag)). split; [done|].
    rewrite Hg. by apply genus_word.
  - intros k Hk.
    repeat (apply elem_of_cons in Hk as [->|Hk]).
    + exists (Species (final_locals name flag)). split; [done|].
      rewrite Hsp. apply Htoken.
      destruct (Species (classified name)) eqn:Hspecies; [by left|].
      right. rewrite <- Hspecies. apply species_token. by rewrite Hspecies.
    + exists (Infraspecies (final_locals name flag)). split; [done|].
      apply Htoken, infraspecies_token.
    + exists (Variety (final_locals name flag)). split; [done|].
      rewrite Hv. apply Htoken, Hep.
    + exists (Subspecies (final_locals name flag)). split; [done|].
      rewrite Hs. apply Htoken, Hep.
    + exists (Form (final_locals name flag)). split; [done|].
      rewrite Hf. apply Htoken. unfold form_scan_spec.
      destruct flag; [by left|apply Hep].
    + inversion Hk.
Qed.

Lemma fields_are_tokens_witness :
  parse_scientific_name (lit "Rosa canina var. alba subsp. rubra") false []
  = (Ok (Some rosa_var_subsp), [])
  ∧ ∃ g, getfield rosa_var_subsp (lit "genus") = Some g ∧ word g.
Proof.
  split; [by vm_compute|].
  apply (fields_are_tokens (lit "Rosa canina var. alba subsp. rubra")
           false [] rosa_var_subsp []).
  by vm_compute.
Defined.

(** * Line 68 at the level of tokens *)

Lemma replace_rewritten (m m' : N) (s : str) :
  rewritten m m' s (replace s [space; m; space] [space; m'; space]).
Proof.
  unfold replace.
  assert (H : ∀ n s, length s ≤ n →
            rewritten m m' s
              (replace_from [space; m; space] [space; m'; space] 0 s)).
  { clear s. induction n as [|n IH]; intros s Hlen.
    - destruct s; [constructor|simpl in Hlen; lia].
    - destruct s as [|c s]; [constructor|].
      change (replace_from [space; m; space] [space; m'; space] 0 (c :: s))
        with (if startswith (c :: s) [space; m; space]
              then [space; m'; space]
                   ++ replace_from [space; m; space] [space; m'; space]
                        (length [space; m; space] - 1) s
              else c :: replace_from [space; m; space] [space; m'; space]
                          0 s).
      destruct (startswith (c :: s) [space; m; space]) eqn:Hsw.
      + apply startswith_app in Hsw. simpl in Hsw.
        injection Hsw as -> Hs. rewrite Hs. simpl.
        apply rewritten_hit, IH.
        rewrite Hs in Hlen. simpl in Hlen. lia.
      + apply rewritten_keep, IH. simpl in Hlen. lia. }
  by apply (H (length s)).
Qed.

Lemma Forall2_same {A} (R : A → A → Prop) (l : list A) :
  (∀ x, R x x) → Forall2 R l l.
Proof. intros HR. induction l; by constructor. Qed.

Lemma Forall2_compose {A} (R1 R2 R3 : A → A → Prop) (l1 l2 l3 : list A) :
  (∀ a b c, R1 a b → R2 b c → R3 a c) →
  Forall2 R1 l1 l2 → Forall2 R2 l2 l3 → Forall2 R3 l1 l3.
Proof.
  intros HR H12. revert l3.
  induction H12 as [|a b l1 l2 Hab _ IH]; intros l3 H23.
  - inversion H23. constructor.
  - inversion H23 as [|? c ? l3' Hbc H23']; subst.
    constructor; [by eapply HR|by apply IH].
Qed.

(** A rewritten occurrence is a token of its own: the tokens of the two
    strings agree, except that a token [m] may have become [m']. *)
Lemma rewritten_split (m m' : N) (s s' : str) :
  isspace m = false → isspace m' = false →
  rewritten m m' s s' →
  ∀ cur, Forall2 (λ t t', t' = t ∨ (t = [m] ∧ t' = [m']))
           (split_from cur s) (split_from cur s').
Proof.
  intros Hm Hm' Hrw. induction Hrw as [|c s s' _ IH|s s' _ IH]; intros cur.
  - apply Forall2_same. by left.
  - simpl. destruct (isspace c); [|apply IH].
    destruct cur; [apply IH|]. constructor; [by left|apply IH].
  - change (split_from cur (space :: m :: space :: s))
      with (match cur with
            | [] => split_from [] (m :: space :: s)
            | _ => reverse cur :: split_from [] (m :: space :: s)
            end).
    change (split_from cur (space :: m' :: space :: s'))
      with (match cur with
            | [] => split_from [] (m' :: space :: s')
            | _ => reverse cur :: split_from [] (m' :: space :: s')
            end).
    assert (Hhit : Forall2 (λ t t', t' = t ∨ (t = [m] ∧ t' = [m']))
                     (split_from [] (m :: space :: s))
                     (split_from [] (m' :: space :: s'))).
    { simpl. rewrite Hm, Hm'. simpl.
      constructor; [by right|apply IH]. }
    destruct cur; [done|]. constructor; [by left|done].
Qed.

(** X11. Normalising the hybrid notation never moves a token boundary:
    the cleaned input has the tokens of the input, in the same order,
    except that some tokens that are the letter [x] or [X] alone have
    become the hybrid sign. *)
Theorem clean_keeps_tokens (name : str) :
  Forall2 normalised (split name) (tokenize name)
  ∧ length (tokenize name) = length (split name).
Proof.
  assert (H : Forall2 normalised (split name) (tokenize name)).
  { unfold tokenize, clean, split.
    eapply Forall2_compose;
      [|apply (rewritten_split 120 times);
          [done|done|apply replace_rewritten]
       |apply (rewritten_split 88 times);
          [done|done|apply replace_rewritten]].
    intros a b c [->|[-> ->]] [->|[Hb ->]]; unfold normalised.
    - by left.
    - right. split; [by right|done].
    - right. split; [by left|done].
    - discriminate Hb. }
  split; [done|]. symmetry. by eapply Forall2_length.
Qed.

(** * Names in the documented format *)

Lemma join_cons (w : str) (ws : list str) :
  join (w :: ws)
  = w ++ match ws with [] => [] | _ => space :: join ws end.
Proof. destruct ws; [by rewrite app_nil_r|done]. Qed.

Lemma join_no_pattern (ws : list str) (m : N) :
  Forall word ws → [m] ∉ ws →
  contains (join ws) [space; m; space] = false.
Proof.
  induction ws as [|w ws IH]; intros Hall Hm; [done|].
  apply Forall_cons in Hall as [Hw Hall].
  rewrite join_cons. destruct Hw as [Hwne Hw].
  rewrite contains_word_app by done.
  destruct ws as [|w2 ws]; [done|].
  rewrite contains_cons, startswith_cons.
  apply orb_false_iff. split.
  - apply andb_false_iff. right.
    destruct (startswith (join (w2 :: ws)) [m; space]) eqn:Hsw; [|done].
    rewrite join_cons in Hsw.
    apply startswith_word in Hsw as [-> _]; [|by inversion Hall|done].
    destruct Hm. right. by left.
  - apply IH; [done|]. intros Hin. apply Hm. by right.
Qed.

Lemma split_join (ws : list str) :
  Forall word ws → split (join ws) = ws.
Proof.
  induction ws as [|w ws IH]; intros Hall; [done|].
  apply Forall_cons in Hall as [[Hne Hw] Hall].
  destruct ws as [|w2 ws]; [by apply split_word|].
  change (join (w :: w2 :: ws)) with (w ++ space :: join (w2 :: ws)).
  rewrite split_word_cons by done. f_equal. by apply IH.
Qed.

Lemma tokenize_join (ws : list str) :
  Forall word ws → lit "x" ∉ ws → lit "X" ∉ ws →
  tokenize (join ws) = ws.
Proof.
  intros Hall Hx HX. unfold tokenize, clean.
  rewrite (replace_absent _ (lit " x "))
    by (by apply (join_no_pattern ws 120%N)).
  rewrite replace_absent by (by apply (join_no_pattern ws 88%N)).
  by apply split_join.
Qed.

Lemma replace_from_word (old new w rest : str) (p : N) :
  Forall (λ c, isspace c = false) w → isspace p = true →
  replace_from (p :: old) new 0 (w ++ rest)
  = w ++ replace_from (p :: old) new 0 rest.
Proof.
  intros Hw Hp. induction w as [|c w IH]; [done|].
  inversion Hw as [|? ? Hc Hw']; subst.
  change (replace_from (p :: old) new 0 ((c :: w) ++ rest))
    with (if (p =? c)%N && startswith (w ++ rest) old
          then new ++ replace_from (p :: old) new
                        (length (p :: old) - 1) (w ++ rest)
          else c :: replace_from (p :: old) new 0 (w ++ rest)).
  rewrite (eqb_space_nonspace p c) by done. simpl. by rewrite IH.
Qed.

Lemma replace_from_hit (m : N) (new s : str) :
  replace_from [space; m; space] new 0 ([space; m; space] ++ s)
  = new ++ replace_from [space; m; space] new 0 s.
Proof.
  change (replace_from [space; m; space] new 0 ([space; m; space] ++ s))
    with (if startswith ([space; m; space] ++ s) [space; m; space]
          then new ++ replace_from [space; m; space] new 0 s
          else space :: replace_from [space; m; space] new 0
                          (m :: space :: s)).
  simpl. by rewrite !N.eqb_refl, startswith_nil.
Qed.

(** The three spellings of the species-hybrid marker give the same
    tokens. *)
Lemma tokenize_marker (g s m : str) :
  word g → word s → g ≠ lit "x" → g ≠ lit "X" → s ≠ lit "x" →
  s ≠ lit "X" →
  m ∈ [lit "x"; lit "X"; [times]] →
  tokenize (join [g; m; s]) = [g; [times]; s].
Proof.
  intros Hg Hs Hgx HgX Hsx HsX Hm.
  assert (Hwords : Forall word [g; [times]; s]).
  { repeat constructor; try done; apply Hg || apply Hs. }
  assert (Hclean : clean (join [g; m; s]) = join [g; [times]; s]).
  { unfold clean.
    repeat (apply elem_of_cons in Hm as [->|Hm]); [| | |inversion Hm].
    - unfold replace at 2. change (join [g; lit "x"; s])
        with (g ++ lit " x " ++ s).
      change (lit " x ") with [space; 120%N; space].
      rewrite (replace_from_word _ _ g) by (done || apply Hg).
      rewrite replace_from_hit.
      rewrite <- (app_nil_r s) at 1.
      rewrite (replace_from_word _ _ s) by (done || apply Hs).
      rewrite app_nil_r.
      apply replace_absent.
      apply (join_no_pattern [g; [times]; s] 88%N); [done|].
      intros Hin.
      repeat (apply elem_of_cons in Hin as [Hin|Hin]);
        [by destruct HgX|done|by destruct HsX|inversion Hin].
    - rewrite (replace_absent _ (lit " x ")).
      + unfold replace. change (join [g; lit "X"; s])
          with (g ++ lit " X " ++ s).
        change (lit " X ") with [space; 88%N; space].
        rewrite (replace_from_word _ _ g) by (done || apply Hg).
        rewrite replace_from_hit.
        rewrite <- (app_nil_r s) at 1.
        rewrite (replace_from_word _ _ s) by (done || apply Hs).
        by rewrite app_nil_r.
      + apply (join_no_pattern [g; lit "X"; s] 120%N).
        * repeat constructor; try done; apply Hg || apply Hs.
        * intros Hin.
          repeat (apply elem_of_cons in Hin as [Hin|Hin]);
            [by destruct Hgx|done|by destruct Hsx|inversion Hin].
    - rewrite (replace_absent _ (lit " x ")).
      + apply replace_absent.
        apply (join_no_pattern [g; [times]; s] 88%N); [done|].
        intros Hin.
        repeat (apply elem_of_cons in Hin as [Hin|Hin]);
          [by destruct HgX|done|by destruct HsX|inversion Hin].
      + apply (join_no_pattern [g; [times]; s] 120%N); [done|].
        intros Hin.
        repeat (apply elem_of_cons in Hin as [Hin|Hin]);
          [by destruct Hgx|done|by destruct Hsx|inversion Hin]. }
  unfold tokenize. rewrite Hclean. by apply split_join.
Qed.

Ltac forall_list :=
  repeat (apply Forall_cons_2; [done|]); apply Forall_nil_2.

Lemma plain_facts (t : str) :
  plain t = true →
  word t ∧ (times ∉ t) ∧ contains t [times] = false
  ∧ (∀ a, a ∈ abbreviation_ignore → t ≠ a)
  ∧ inlist t abbreviation_ignore = false
  ∧ ∃ c t', t = c :: t' ∧ (c =? times)%N = false.
Proof.
  unfold plain. intros H.
  apply andb_true_iff in H as [H Hign].
  apply andb_true_iff in H as [H Htimes].
  apply andb_true_iff in H as [Hne Hsp].
  apply negb_true_iff in Hign. apply negb_true_iff in Htimes.
  assert (Hnot : times ∉ t).
  { intros Hin. apply contains_char in Hin. congruence. }
  split; [split|].
  - by destruct t.
  - apply Forall_forall. intros c Hc.
    rewrite forallb_forall in Hsp. apply negb_true_iff, Hsp.
    by apply list_elem_of_In.
  - split; [done|]. split; [done|]. split; [|split; [done|]].
    + intros a Ha ->. unfold inlist in Hign.
      by apply bool_decide_eq_false in Hign.
    + destruct t as [|c t']; [done|]. exists c, t'. split; [done|].
      apply N.eqb_neq. intros ->. apply Hnot. by left.
Qed.

(** The abbreviations the scans look for are ignorable abbreviations and
    clean tokens, and no abbreviation belongs to two ranks. *)
Lemma rank_abbreviation (k : rank_scan) (a : str) :
  a ∈ abbreviations_of k →
  a ∈ abbreviation_ignore ∧ word a ∧ contains a [times] = false
  ∧ a ≠ lit "x" ∧ a ≠ lit "X"
  ∧ ∀ k', inlist a (abbreviations_of k')
          = match k, k' with
            | VarietyScan, VarietyScan
            | SubspeciesScan, SubspeciesScan
            | FormScan, FormScan => true
            | _, _ => false
            end.
Proof.
  intros Ha.
  destruct k; simpl in Ha;
    repeat (apply elem_of_cons in Ha as [->|Ha]); try (by inversion Ha).
  all: split; [apply (bool_decide_unpack _); by vm_compute|].
  all: split; [split; [done|repeat constructor]|].
  all: split; [by vm_compute|].
  all: split; [done|]. all: split; [done|].
  all: by intros [| |].
Qed.

Lemma scan_spec_absent (abbrs toks : list str) :
  (∀ a, a ∈ abbrs → inlist a toks = false) →
  scan_spec abbrs toks = NoMatch.
Proof.
  intros H. unfold scan_spec.
  assert (Hnone : first_present abbrs toks = None).
  { induction abbrs as [|a abbrs IH]; [done|]. simpl.
    rewrite H by (by left). apply IH. intros b Hb. apply H. by right. }
  by rewrite Hnone.
Qed.

Lemma inlist_cons (b t : str) (toks : list str) :
  inlist b (t :: toks) = bool_decide (b = t) || inlist b toks.
Proof.
  unfold inlist.
  destruct (decide (b = t)) as [->|Hne].
  - rewrite bool_decide_eq_true_2 by (by left).
    by rewrite bool_decide_eq_true_2.
  - rewrite (bool_decide_eq_false_2 (b = t)) by done. simpl.
    apply bool_decide_ext. rewrite elem_of_cons. intuition.
Qed.

Lemma inlist_plain (b t : str) (toks : list str) :
  plain t = true → b ∈ abbreviation_ignore →
  inlist b (t :: toks) = inlist b toks.
Proof.
  intros Ht Hb. rewrite inlist_cons.
  destruct (plain_facts t Ht) as (_ & _ & _ & Hne & _).
  rewrite bool_decide_eq_false_2; [done|].
  intros ->. by apply (Hne t).
Qed.

(** No scan finds anything among plain words. *)
Lemma scan_spec_plain (k : rank_scan) (toks : list str) :
  Forall (λ t, plain t = true) toks →
  scan_spec (abbreviations_of k) toks = NoMatch.
Proof.
  intros Hall. apply scan_spec_absent. intros a Ha.
  destruct (rank_abbreviation k a Ha) as (Hign & _).
  induction Hall as [|t toks Ht _ IH]; [done|].
  by rewrite inlist_plain.
Qed.

Lemma form_scan_spec_plain (flag : bool) (toks : list str) :
  Forall (λ t, plain t = true) toks →
  form_scan_spec flag toks = NoMatch.
Proof.
  intros Hall. unfold form_scan_spec. destruct flag; [done|].
  by apply (scan_spec_plain FormScan).
Qed.

(** The parser on a name whose working tokens are plain words: nothing is
    found by the scans and nothing is printed. *)
Lemma parse_plain_tokens `{Stdout} (name : str) (flag : bool) out :
  tokenize name ≠ [] →
  Forall (λ t, plain t = true) (working_tokens name) →
  parse_scientific_name name flag out
  = (Ok (Some (assemble (classified name))), out).
Proof.
  intros Htok Hall.
  pose proof (scan_spec_plain VarietyScan _ Hall) as Hv.
  pose proof (scan_spec_plain SubspeciesScan _ Hall) as Hs.
  pose proof (form_scan_spec_plain flag _ Hall) as Hf.
  simpl abbreviations_of in Hv, Hs.
  assert (Hd : diagnostics name flag = []).
  { unfold diagnostics. by rewrite Hv, Hs, Hf. }
  rewrite parse_silent by done.
  rewrite final_locals_eq. by rewrite Hv, Hs, Hf.
Qed.

Lemma classified_tokens (name : str) (l : locals) :
  classified name = l → working_tokens name = scientific_name_tokens l.
Proof. by intros <-. Qed.

(** X12. A plain binomial, two plain words joined by a space, parses
    to rank Species with the first word as genus and the second as
    species; nothing else is set and nothing is printed. *)
Theorem plain_binomial `{Stdout} (g s : str) (flag : bool) out :
  plain g = true → plain s = true →
  parse_scientific_name (join [g; s]) flag out
  = (Ok (Some [(lit "taxon_rank", lit "Species");
               (lit "genus", g);
               (lit "species", s);
               (lit "genus_hybrid", []);
               (lit "species_hybrid", []);
               (lit "infraspecies", []);
               (lit "variety", []);
               (lit "subspecies", []);
               (lit "form", [])]), out).
Proof.
  intros Hg Hs.
  destruct (plain_facts g Hg) as (Hgw & _ & Hgt & Hgi & _ & c & t & -> & Hc).
  destruct (plain_facts s Hs) as (Hsw & _ & Hst & Hsi & Hsn & _).
  assert (Htok : tokenize (join [c :: t; s]) = [c :: t; s]).
  { apply tokenize_join; [forall_list| |].
    - intros Hin. repeat (apply elem_of_cons in Hin as [Hin|Hin]);
        [|..|inversion Hin].
      + symmetry in Hin. revert Hin. apply Hgi.
        apply (bool_decide_unpack _). by vm_compute.
      + symmetry in Hin. revert Hin. apply Hsi.
        apply (bool_decide_unpack _). by vm_compute.
    - intros Hin. repeat (apply elem_of_cons in Hin as [Hin|Hin]);
        [|..|inversion Hin].
      + symmetry in Hin. revert Hin. apply Hgi.
        apply (bool_decide_unpack _). by vm_compute.
      + symmetry in Hin. revert Hin. apply Hsi.
        apply (bool_decide_unpack _). by vm_compute. }
  assert (Hcl : classified (join [c :: t; s])
                = Locals (lit "Species") (c :: t) s [] [] [] [] [] []
                    [c :: t; s]).
  { unfold classified. rewrite Htok, classify_run.
    cbv zeta. rewrite Hc. cbn [andb]. rewrite Hsn. cbn [existsb].
    by rewrite Hgt, Hst. }
  rewrite parse_plain_tokens.
  - by rewrite Hcl.
  - by rewrite Htok.
  - rewrite (classified_tokens _ _ Hcl). simpl. forall_list.
Qed.

Lemma plain_binomial_witness :
  plain (lit "Rosa") = true ∧ plain (lit "canina") = true
  ∧ parse_scientific_name (join [lit "Rosa"; lit "canina"]) false []
    = (Ok (Some [(lit "taxon_rank", lit "Species");
                 (lit "genus", lit "Rosa");
                 (lit "species", lit "canina");
                 (lit "genus_hybrid", []);
                 (lit "species_hybrid", []);
                 (lit "infraspecies", []);
                 (lit "variety", []);
                 (lit "subspecies", []);
                 (lit "form", [])]), []).
Proof.
  split; [reflexivity|]. split; [reflexivity|].
  apply (plain_binomial (lit "Rosa") (lit "canina") false []);
    reflexivity.
Defined.

(** X13. The species-hybrid marker between two plain words may be written
    [x], [X] or with the hybrid sign: in all three spellings the parser
    returns rank Species, the first word as genus, the second as species
    and [species_hybrid] set, and prints nothing. *)
Theorem species_hybrid_marker `{Stdout} (g s m : str) (flag : bool) out :
  plain g = true → plain s = true →
  m ∈ [lit "x"; lit "X"; [times]] →
  parse_scientific_name (join [g; m; s]) flag out
  = (Ok (Some [(lit "taxon_rank", lit "Species");
               (lit "genus", g);
               (lit "species", s);
               (lit "genus_hybrid", []);
               (lit "species_hybrid", [times]);
               (lit "infraspecies", []);
               (lit "variety", []);
               (lit "subspecies", []);
               (lit "form", [])]), out).
Proof.
  intros Hg Hs Hm.
  destruct (plain_facts g Hg)
    as (Hgw & Hgn & Hgt & Hgi & _ & c & t & Hgeq & Hc).
  destruct (plain_facts s Hs) as (Hsw & Hsn & Hst & Hsi & _ & _).
  assert (Hx : lit "x" ∈ abbreviation_ignore)
    by (apply (bool_decide_unpack _); by vm_compute).
  assert (HX : lit "X" ∈ abbreviation_ignore)
    by (apply (bool_decide_unpack _); by vm_compute).
  assert (Htok : tokenize (join [g; m; s]) = [g; [times]; s]).
  { apply tokenize_marker; try done; by (apply Hgi || apply Hsi). }
  assert (Hcl : classified (join [g; m; s])
                = Locals (lit "Species") g s [] [times] [] [] [] []
                    [g; s]).
  { unfold classified. rewrite Htok, Hgeq, classify_run.
    cbv zeta. rewrite Hc. cbn [andb existsb]. rewrite <- Hgeq, Hgt.
    change (contains [times] [times]) with true. cbn [orb map].
    rewrite (strip_without_times g), (strip_without_times s) by done.
    change (replace [times] [times] []) with (@nil N).
    rewrite filter_cons_True by apply Hgw.
    rewrite filter_cons_False by (intros Hn; by apply Hn).
    rewrite filter_cons_True by apply Hsw.
    done. }
  rewrite parse_plain_tokens.
  - by rewrite Hcl.
  - by rewrite Htok.
  - rewrite (classified_tokens _ _ Hcl). simpl. forall_list.
Qed.

Lemma species_hybrid_marker_witness :
  plain (lit "Rosa") = true ∧ plain (lit "damascena") = true
  ∧ lit "x" ∈ [lit "x"; lit "X"; [times]]
  ∧ parse_scientific_name (join [lit "Rosa"; lit "x"; lit "damascena"])
      false []
    = (Ok (Some [(lit "taxon_rank", lit "Species");
                 (lit "genus", lit "Rosa");
                 (lit "species", lit "damascena");
                 (lit "genus_hybrid", []);
                 (lit "species_hybrid", [times]);
                 (lit "infraspecies", []);
                 (lit "variety", []);
                 (lit "subspecies", []);
                 (lit "form", [])]), []).
Proof.
  assert (Hm : lit "x" ∈ [lit "x"; lit "X"; [times]])
    by (apply (bool_decide_unpack _); by vm_compute).
  split; [reflexivity|]. split; [reflexivity|]. split; [exact Hm|].
  apply (species_hybrid_marker (lit "Rosa") (lit "damascena") (lit "x")
           false []); [reflexivity|reflexivity|exact Hm].
Defined.

(** X14. A hybrid sign glued to the front of a plain binomial marks a
    genus hybrid: the genus is the first word without the sign,
    [genus_hybrid] is set, [species_hybrid] is not, and the rank is
    Species. *)
Theorem genus_hybrid_binomial `{Stdout} (g s : str) (flag : bool) out :
  plain g = true → plain s = true →
  parse_scientific_name (times :: join [g; s]) flag out
  = (Ok (Some [(lit "taxon_rank", lit "Species");
               (lit "genus", g);
               (lit "species", s);
               (lit "genus_hybrid", [times]);
               (lit "species_hybrid", []);
               (lit "infraspecies", []);
               (lit "variety", []);
               (lit "subspecies", []);
               (lit "form", [])]), out).
Proof.
  intros Hg Hs.
  destruct (plain_facts g Hg)
    as (Hgw & Hgn & Hgt & Hgi & _ & c & t & Hgeq & Hc).
  destruct (plain_facts s Hs) as (Hsw & Hsn & Hst & Hsi & Hsig & _).
  change (times :: join [g; s]) with (join [times :: g; s]).
  assert (Htok : tokenize (join [times :: g; s]) = [times :: g; s]).
  { apply tokenize_join.
    - apply Forall_cons_2; [|forall_list]. split; [done|].
      constructor; [done|apply Hgw].
    - intros Hin. repeat (apply elem_of_cons in Hin as [Hin|Hin]);
        [by vm_compute in Hin| |inversion Hin].
      symmetry in Hin. revert Hin. apply Hsi.
      apply (bool_decide_unpack _). by vm_compute.
    - intros Hin. repeat (apply elem_of_cons in Hin as [Hin|Hin]);
        [by vm_compute in Hin| |inversion Hin].
      symmetry in Hin. revert Hin. apply Hsi.
      apply (bool_decide_unpack _). by vm_compute. }
  assert (Hcl : classified (join [times :: g; s])
                = Locals (lit "Species") g s [times] [] [] [] [] []
                    [g; s]).
  { unfold classified. rewrite Htok, classify_run.
    cbv zeta. rewrite N.eqb_refl.
    assert (Hlen : negb (length g =? 0) = true) by (by rewrite Hgeq).
    rewrite Hlen. cbn [andb]. rewrite Hsig. cbn [existsb].
    by rewrite Hgt, Hst. }
  rewrite parse_plain_tokens.
  - by rewrite Hcl.
  - by rewrite Htok.
  - rewrite (classified_tokens _ _ Hcl). simpl. forall_list.
Qed.

Lemma genus_hybrid_binomial_witness :
  plain (lit "Rosa") = true ∧ plain (lit "damascena") = true
  ∧ parse_scientific_name (times :: join [lit "Rosa"; lit "damascena"])
      false []
    = (Ok (Some [(lit "taxon_rank", lit "Species");
                 (lit "genus", lit "Rosa");
                 (lit "species", lit "damascena");
                 (lit "genus_hybrid", [times]);
                 (lit "species_hybrid", []);
                 (lit "infraspecies", []);
                 (lit "variety", []);
                 (lit "subspecies", []);
                 (lit "form", [])]), []).
Proof.
  split; [reflexivity|]. split; [reflexivity|].
  apply (genus_hybrid_binomial (lit "Rosa") (lit "damascena") false []);
    reflexivity.
Defined.

Lemma first_present_marker (abbrs toks : list str) (a : str) :
  (∀ b, b ∈ abbrs → inlist b toks = bool_decide (b = a)) →
  first_present abbrs toks = if inlist a abbrs then Some a else None.
Proof.
  intros H. induction abbrs as [|b abbrs IH]; [done|].
  simpl. rewrite H by (by left). rewrite (inlist_cons a b).
  destruct (decide (b = a)) as [->|Hne].
  - by rewrite !bool_decide_eq_true_2.
  - rewrite bool_decide_eq_false_2 by done.
    rewrite (bool_decide_eq_false_2 (a = b)) by congruence. simpl.
    apply IH. intros b' Hb'. apply H. by right.
Qed.

(** A scan on two plain words, a token [a] and a plain word [e]: the
    epithet [e] is found when [a] is one of the scan's abbreviations, and
    nothing is found otherwise. *)
Lemma scan_spec_marker (abbrs : list str) (g s a e : str) :
  plain g = true → plain s = true → plain e = true →
  (∀ b, b ∈ abbrs → b ∈ abbreviation_ignore) →
  scan_spec abbrs [g; s; a; e]
  = if inlist a abbrs then Epithet e else NoMatch.
Proof.
  intros Hg Hs He Hign. unfold scan_spec.
  rewrite (first_present_marker abbrs [g; s; a; e] a).
  - destruct (inlist a abbrs) eqn:Ha; [|done].
    assert (Hai : a ∈ abbreviation_ignore).
    { apply Hign. unfold inlist in Ha.
      by apply bool_decide_eq_true in Ha. }
    destruct (plain_facts g Hg) as (_ & _ & _ & Hgi & _).
    destruct (plain_facts s Hs) as (_ & _ & _ & Hsi & _).
    simpl. rewrite decide_False by (by apply Hgi).
    rewrite decide_False by (by apply Hsi).
    by rewrite decide_True.
  - intros b Hb. rewrite !inlist_plain by (done || by apply Hign).
    rewrite inlist_cons, inlist_plain by (done || by apply Hign).
    unfold inlist.
    rewrite (bool_decide_eq_false_2 (b ∈ [])) by (intros H; inversion H).
    by rewrite orb_false_r.
Qed.

(** X15. A name in the documented format, two plain words, an
    abbreviation of one of the three ranks and a plain epithet, parses to
    that rank: the epithet is the infraspecific epithet and the field of
    the rank, the fields of the other two ranks are empty, and nothing is
    printed. For the form abbreviation this needs the form scan to be
    switched on. *)
Theorem infraspecific_name `{Stdout} (k : rank_scan) (g s a e : str)
    (flag : bool) out :
  enabled k flag = true →
  a ∈ abbreviations_of k →
  plain g = true → plain s = true → plain e = true →
  parse_scientific_name (join [g; s; a; e]) flag out
  = (Ok (Some [(lit "taxon_rank", rank_name k);
               (lit "genus", g);
               (lit "species", s);
               (lit "genus_hybrid", []);
               (lit "species_hybrid", []);
               (lit "infraspecies", e);
               (lit "variety", epithet_at k VarietyScan e);
               (lit "subspecies", epithet_at k SubspeciesScan e);
               (lit "form", epithet_at k FormScan e)]), out).
Proof.
  intros Hon Ha Hg Hs He.
  destruct (plain_facts g Hg)
    as (Hgw & Hgn & Hgt & Hgi & _ & c & t & Hgeq & Hc).
  destruct (plain_facts s Hs) as (Hsw & Hsn & Hst & Hsi & _ & _).
  destruct (plain_facts e He) as (Hew & Hen & Het & Hei & _ & _).
  destruct (rank_abbreviation k a Ha)
    as (Hai & Haw & Hat & Hax & HaX & Hother).
  assert (Hx : lit "x" ∈ abbreviation_ignore)
    by (apply (bool_decide_unpack _); by vm_compute).
  assert (HX : lit "X" ∈ abbreviation_ignore)
    by (apply (bool_decide_unpack _); by vm_compute).
  assert (Htok : tokenize (join [g; s; a; e]) = [g; s; a; e]).
  { apply tokenize_join; [forall_list| |].
    - intros Hin. repeat (apply elem_of_cons in Hin as [Hin|Hin]);
        [| | | |inversion Hin]; try congruence.
      + by apply (Hgi (lit "x")).
      + by apply (Hsi (lit "x")).
      + by apply (Hei (lit "x")).
    - intros Hin. repeat (apply elem_of_cons in Hin as [Hin|Hin]);
        [| | | |inversion Hin]; try congruence.
      + by apply (Hgi (lit "X")).
      + by apply (Hsi (lit "X")).
      + by apply (Hei (lit "X")). }
  assert (Hcl : classified (join [g; s; a; e])
                = Locals (lit "Species") g s [] [] [] [] [] []
                    [g; s; a; e]).
  { unfold classified. rewrite Htok, Hgeq, classify_run.
    cbv zeta. rewrite Hc. cbn [andb existsb]. rewrite <- Hgeq.
    by rewrite Hgt, Hst, Hat, Het. }
  assert (Hscan : ∀ k', scan_spec (abbreviations_of k') [g; s; a; e]
                        = if inlist a (abbreviations_of k')
                          then Epithet e else NoMatch).
  { intros k'. apply scan_spec_marker; try done.
    intros b Hb. by destruct (rank_abbreviation k' b Hb). }
  pose proof (Hscan VarietyScan) as Hv.
  pose proof (Hscan SubspeciesScan) as Hsub.
  pose proof (Hscan FormScan) as Hf.
  rewrite !Hother in Hv, Hsub, Hf.
  cbn [abbreviations_of] in Hv, Hsub, Hf.
  pose proof (classified_tokens _ _ Hcl) as Hw.
  cbn [scientific_name_tokens] in Hw.
  assert (Hd : diagnostics (join [g; s; a; e]) flag = []).
  { unfold diagnostics, form_scan_spec. rewrite Hw, Hv, Hsub, Hf.
    destruct k; destruct flag; try discriminate Hon; done. }
  rewrite parse_silent by (done || by rewrite Htok).
  rewrite final_locals_eq. unfold form_scan_spec.
  rewrite Hw, Hcl, Hv, Hsub, Hf.
  destruct k; destruct flag; try discriminate Hon; done.
Qed.

Lemma infraspecific_name_witness :
  enabled SubspeciesScan true = true
  ∧ lit "ssp." ∈ abbreviations_of SubspeciesScan
  ∧ plain (lit "Rosa") = true ∧ plain (lit "canina") = true
  ∧ plain (lit "dumetorum") = true
  ∧ parse_scientific_name
      (join [lit "Rosa"; lit "canina"; lit "ssp."; lit "dumetorum"])
      true []
    = (Ok (Some [(lit "taxon_rank", rank_name SubspeciesScan);
                 (lit "genus", lit "Rosa");
                 (lit "species", lit "canina");
                 (lit "genus_hybrid", []);
                 (lit "species_hybrid", []);
                 (lit "infraspecies", lit "dumetorum");
                 (lit "variety",
                  epithet_at SubspeciesScan VarietyScan (lit "dumetorum"));
                 (lit "subspecies",
                  epithet_at SubspeciesScan SubspeciesScan
                    (lit "dumetorum"));
                 (lit "form",
                  epithet_at SubspeciesScan FormScan (lit "dumetorum"))]),
       []).
Proof.
  assert (Ha : lit "ssp." ∈ abbreviations_of SubspeciesScan)
    by (apply (bool_decide_unpack _); by vm_compute).
  split; [reflexivity|]. split; [exact Ha|].
  split; [reflexivity|]. split; [reflexivity|]. split; [reflexivity|].
  apply (infraspecific_name SubspeciesScan (lit "Rosa") (lit "canina")
           (lit "ssp.") (lit "dumetorum") true []);
    [reflexivity|exact Ha|reflexivity..].
Defined.

Lemma ignorable_word (a : str) :
  a ∈ abbreviation_ignore → word a.
Proof.
  intros Ha. unfold abbreviation_ignore in Ha.
  repeat (apply elem_of_cons in Ha as [->|Ha]); try (by inversion Ha).
  all: split; [done|repeat constructor].
Qed.

(** X16. A plain word alone, or followed by any one of the ignorable
    abbreviations, parses to rank Genus with that word as genus; the
    abbreviation is dropped, nothing else is set and nothing is
    printed. *)
Theorem genus_only_name `{Stdout} (g a : str) (flag : bool) out :
  plain g = true →
  a ∈ abbreviation_ignore →
  parse_scientific_name g flag out
  = (Ok (Some [(lit "taxon_rank", lit "Genus");
               (lit "genus", g);
               (lit "species", []);
               (lit "genus_hybrid", []);
               (lit "species_hybrid", []);
               (lit "infraspecies", []);
               (lit "variety", []);
               (lit "subspecies", []);
               (lit "form", [])]), out)
  ∧ parse_scientific_name (join [g; a]) flag out
    = parse_scientific_name g flag out.
Proof.
  intros Hg Ha.
  destruct (plain_facts g Hg)
    as (Hgw & Hgn & Hgt & Hgi & _ & c & t & Hgeq & Hc).
  pose proof (ignorable_word a Ha) as Haw.
  assert (Hin : inlist a abbreviation_ignore = true)
    by (by apply bool_decide_eq_true).
  assert (Htok1 : tokenize g = [g]).
  { unfold tokenize, clean. destruct Hgw as [Hne Hgw].
    rewrite (replace_absent _ (lit " x ")) by (by apply contains_word).
    rewrite replace_absent by (by apply contains_word).
    by apply split_word. }
  assert (Htok2 : tokenize (join [g; a]) = [g; a]).
  { unfold tokenize.
    change (join [g; a]) with (g ++ space :: a).
    rewrite <- (app_nil_r a).
    change (g ++ space :: a ++ []) with (recombine g a []).
    rewrite recombine_clean by (done || by left).
    rewrite recombine_tokens by (done || by left).
    by rewrite app_nil_r. }
  assert (Hcl1 : classified g
                 = Locals (lit "Genus") g [] [] [] [] [] [] [] [g]).
  { unfold classified. rewrite Htok1. rewrite Hgeq at 1.
    rewrite classify_run. cbv zeta. rewrite Hc. cbn [andb existsb].
    rewrite <- Hgeq. by rewrite Hgt. }
  assert (Hcl2 : classified (join [g; a])
                 = Locals (lit "Genus") g [] [] [] [] [] [] [] [g]).
  { unfold classified. rewrite Htok2. rewrite Hgeq at 1.
    rewrite classify_run. cbv zeta. rewrite Hc. cbn [andb].
    rewrite Hin. cbn [existsb]. rewrite <- Hgeq. by rewrite Hgt. }
  assert (H1 : parse_scientific_name g flag out
               = (Ok (Some (assemble (classified g))), out)).
  { apply parse_plain_tokens; [by rewrite Htok1|].
    rewrite (classified_tokens _ _ Hcl1). simpl. forall_list. }
  assert (H2 : parse_scientific_name (join [g; a]) flag out
               = (Ok (Some (assemble (classified (join [g; a])))), out)).
  { apply parse_plain_tokens; [by rewrite Htok2|].
    rewrite (classified_tokens _ _ Hcl2). simpl. forall_list. }
  by rewrite H2, H1, Hcl1, Hcl2.
Qed.

Lemma genus_only_name_witness :
  plain (lit "Rosa") = true
  ∧ lit "cv." ∈ abbreviation_ignore
  ∧ parse_scientific_name (lit "Rosa") false []
    = (Ok (Some [(lit "taxon_rank", lit "Genus");
                 (lit "genus", lit "Rosa");
                 (lit "species", []);
                 (lit "genus_hybrid", []);
                 (lit "species_hybrid", []);
                 (lit "infraspecies", []);
                 (lit "variety", []);
                 (lit "subspecies", []);
                 (lit "form", [])]), [])
  ∧ parse_scientific_name (join [lit "Rosa"; lit "cv."]) false []
    = parse_scientific_name (lit "Rosa") false [].
Proof.
  assert (Ha : lit "cv." ∈ abbreviation_ignore)
    by (apply (bool_decide_unpack _); by vm_compute).
  split; [reflexivity|]. split; [exact Ha|].
  apply (genus_only_name (lit "Rosa") (lit "cv.") false []);
    [reflexivity|exact Ha].
Defined.
